(** * Cadastro de carros importados (cars.go): model and properties

    The registry of cars.go keeps a map from identifier to record and an
    ordered slice of records, mirrors the slice to a JSON file after each
    mutation and is driven by a line-oriented console loop.  The Go
    program is embedded as state-passing functions over an explicit
    [World] (standard input, clock, files, standard output). *)

From Stdlib Require Import ZArith SpecFloat Ascii String.
From stdpp Require Import gmap strings list.

Local Open Scope string_scope.
Local Open Scope list_scope.
Local Open Scope Z_scope.

(** ** Go values *)

(** [float64]: IEEE 754 binary64 values; the comparisons are Go's. *)
Definition float64 : Type := spec_float.
Definition f0 : float64 := S754_zero false.

(** Go's [int] on a 64-bit platform. *)
Definition min_int : Z := - 2 ^ 63.
Definition max_int : Z := 2 ^ 63 - 1.

Record Carro := mkCarro {
  ID : string;
  Marca : string;
  Modelo : string;
  Ano : Z;
  Cor : string;
  Preco : float64;
  PaisOrigem : string;
  DataCadastro : string
}.

(** A Go slice of records: [None] is the nil slice, [Some l] a non-nil
    slice with elements [l].  The two differ when marshalled. *)
Definition slice : Type := option (list Carro).

Definition elems (s : slice) : list Carro :=
  match s with
  | None => []
  | Some l => l
  end.

Definition append_slice (s : slice) (c : Carro) : slice := Some (elems s ++ [c]).

(** ** strconv and strings *)

Definition byte_of (c : ascii) : Z := Z.of_nat (nat_of_ascii c).

Definition is_digit (c : ascii) : bool := (48 <=? byte_of c) && (byte_of c <=? 57).

Fixpoint digits_value (acc : Z) (s : string) : option Z :=
  match s with
  | EmptyString => Some acc
  | String c r =>
      if is_digit c then digits_value (acc * 10 + (byte_of c - 48)) r else None
  end.

(** [strconv.Atoi]: an optional sign, then one or more decimal digits;
    a value outside the range of [int] is an error. *)
Definition Atoi (s : string) : option Z :=
  match s with
  | EmptyString => None
  | String c r =>
      let neg := Ascii.eqb c "-" in
      let body := if neg || Ascii.eqb c "+" then r else s in
      match body with
      | EmptyString => None
      | _ =>
          match digits_value 0 body with
          | None => None
          | Some n =>
              let v := if neg then - n else n in
              if (min_int <=? v) && (v <=? max_int) then Some v else None
          end
      end
  end.

Definition is_ascii_byte (c : ascii) : bool := byte_of c <? 128.

Fixpoint isASCII (s : string) : bool :=
  match s with
  | EmptyString => true
  | String c r => is_ascii_byte c && isASCII r
  end.

(** The [asciiSpace] table of package strings. *)
Definition asciiSpace (c : ascii) : bool :=
  let b := byte_of c in
  (b =? 9) || (b =? 10) || (b =? 11) || (b =? 12) || (b =? 13) || (b =? 32).

Definition is_upper (c : ascii) : bool := (65 <=? byte_of c) && (byte_of c <=? 90).

Definition lower_byte (c : ascii) : ascii :=
  if is_upper c then ascii_of_nat (nat_of_ascii c + 32) else c.

Fixpoint lower_ascii (s : string) : string :=
  match s with
  | EmptyString => EmptyString
  | String c r => String (lower_byte c) (lower_ascii r)
  end.

Fixpoint trim_left_ascii (s : string) : string :=
  match s with
  | EmptyString => EmptyString
  | String c r => if asciiSpace c then trim_left_ascii r else s
  end.

Fixpoint trim_right_ascii (s : string) : string :=
  match s with
  | EmptyString => EmptyString
  | String c r =>
      match trim_right_ascii r with
      | EmptyString => if asciiSpace c then EmptyString else String c EmptyString
      | r' => String c r'
      end
  end.

(** Splitting around runs of ASCII white space; [cur] is the field being
    read, in reverse. *)
Fixpoint fields_ascii (cur : list ascii) (s : string) : list string :=
  let flush (k : list string) :=
    match cur with
    | [] => k
    | _ => string_of_list_ascii (rev cur) :: k
    end in
  match s with
  | EmptyString => flush []
  | String c r =>
      if asciiSpace c then flush (fields_ascii [] r) else fields_ascii (c :: cur) r
  end.

Fixpoint has_upper (s : string) : bool :=
  match s with
  | EmptyString => false
  | String c r => is_upper c || has_upper r
  end.

(** Decimal text of an integer, as [%d] prints it. *)
Fixpoint pos_digits (fuel : nat) (n : Z) (acc : string) : string :=
  match fuel with
  | O => acc
  | S k =>
      let acc' := String (ascii_of_nat (Z.to_nat (48 + n mod 10))) acc in
      if n <? 10 then acc' else pos_digits k (n / 10) acc'
  end.

Definition itoa (n : Z) : string :=
  if n <? 0 then String "-" (pos_digits (S (Z.to_nat (Z.log2 (- n)))) (- n) EmptyString)
  else pos_digits (S (Z.to_nat (Z.log2 n))) n EmptyString.

(** The reading of a decimal text with an optional minus sign. *)
Definition read_back (s : string) : option Z :=
  match s with
  | EmptyString => Some 0
  | String c r =>
      if Ascii.eqb c "-" then Z.opp <$> digits_value 0 r else digits_value 0 s
  end.

(** ** The parts of the Go library taken as given

    Decimal conversion of floating-point numbers and the Unicode tables are
    not part of the program; the model is parametric in them. *)
Class GoLib := {
  (** [strconv.ParseFloat(s, 64)]: [Some f] when the error is nil. *)
  ParseFloat : string -> option float64;
  (** The text encoding/json writes for a finite [float64]. *)
  FormatFloat : float64 -> string;
  (** [strings.TrimSpace], [strings.ToLower], [strings.Fields] on a string
      that holds a byte outside ASCII. *)
  TrimSpaceUnicode : string -> string;
  ToLowerUnicode : string -> string;
  FieldsUnicode : string -> list string;
  (** [json.Unmarshal(data, &carros)] on a nil [[]Carro]: [Some s] when the
      error is nil. *)
  Unmarshal : string -> option slice
}.

(** ** encoding/json: the encoder

    [json.MarshalIndent] with an empty prefix and a two-space indent, for
    a value of type [[]Carro], written out as
    text.  Strings are escaped as the encoder does with HTML escaping on
    (the default of [Marshal]) and are coerced to valid UTF-8. *)

Definition cont (c : ascii) : bool := (128 <=? byte_of c) && (byte_of c <=? 191).

Definition in_range (lo hi : Z) (c : ascii) : bool := (lo <=? byte_of c) && (byte_of c <=? hi).

(** Width of the UTF-8 sequence at the head of [s]; 0 when the head is not
    the start of a well-formed sequence ([utf8.DecodeRuneInString] then
    returns [RuneError] with width 1). *)
Definition rune_width (s : string) : nat :=
  match s with
  | String b0 (String b1 r1) =>
      if in_range 194 223 b0 then (if cont b1 then 2 else 0)%nat
      else
        match r1 with
        | String b2 r2 =>
            let three :=
              (Z.eqb (byte_of b0) 224 && in_range 160 191 b1)
              || ((in_range 225 236 b0 || in_range 238 239 b0) && cont b1)
              || (Z.eqb (byte_of b0) 237 && in_range 128 159 b1) in
            if three then (if cont b2 then 3 else 0)%nat
            else
              match r2 with
              | String b3 _ =>
                  let four :=
                    (Z.eqb (byte_of b0) 240 && in_range 144 191 b1)
                    || (in_range 241 243 b0 && cont b1)
                    || (Z.eqb (byte_of b0) 244 && in_range 128 143 b1) in
                  if four && cont b2 && cont b3 then 4%nat else 0%nat
              | EmptyString => 0%nat
              end
        | EmptyString => 0%nat
        end
  | _ => 0%nat
  end.

Definition hex_digit (n : Z) : ascii :=
  ascii_of_nat (Z.to_nat (if n <? 10 then 48 + n else 87 + n)).

(** The [htmlSafeSet] table: printable ASCII without the quote, the
    backslash and the characters [<], [>], [&]. *)
Definition htmlSafe (c : ascii) : bool :=
  let b := byte_of c in
  (32 <=? b) && (b <? 128)
  && negb ((b =? 34) || (b =? 92) || (b =? 60) || (b =? 62) || (b =? 38)).

Definition escape_byte (c : ascii) : string :=
  let b := byte_of c in
  if (b =? 34) || (b =? 92) then String (ascii_of_nat 92) (String c EmptyString)
  else if b =? 8 then "\b"
  else if b =? 12 then "\f"
  else if b =? 10 then "\n"
  else if b =? 13 then "\r"
  else if b =? 9 then "\t"
  else "\u00" +:+ String (hex_digit (b / 16)) (String (hex_digit (b mod 16)) EmptyString).

(** U+2028 and U+2029, which the encoder always escapes. *)
Definition is_line_sep (s : string) : option string :=
  match s with
  | String b0 (String b1 (String b2 _)) =>
      if (byte_of b0 =? 226) && (byte_of b1 =? 128) then
        if byte_of b2 =? 168 then Some "\u2028"
        else if byte_of b2 =? 169 then Some "\u2029"
        else None
      else None
  | _ => None
  end.

(** The body of a JSON string for the bytes of [s].  [copy] counts the
    continuation bytes still to be copied of a sequence already recognised,
    [drop] those of a sequence already written as an escape. *)
Fixpoint encode_bytes (copy drop : nat) (s : string) : string :=
  match s with
  | EmptyString => EmptyString
  | String c r =>
      match copy, drop with
      | S k, _ => String c (encode_bytes k drop r)
      | O, S k => encode_bytes O k r
      | O, O =>
          if is_ascii_byte c then
            (if htmlSafe c then String c EmptyString else escape_byte c) +:+ encode_bytes O O r
          else
            match rune_width s with
            | O => "\ufffd" +:+ encode_bytes O O r
            | S k =>
                match is_line_sep s with
                | Some esc => esc +:+ encode_bytes O k r
                | None => String c (encode_bytes k O r)
                end
            end
      end
  end.

Definition nl : string := String (ascii_of_nat 10) EmptyString.
Definition dq : string := String (ascii_of_nat 34) EmptyString.

Definition encode_string (s : string) : string :=
  dq +:+ encode_bytes O O s +:+ dq.

(** A field name at nesting depth 2, followed by the separator. *)
Definition key (k : string) : string := "    " +:+ dq +:+ k +:+ dq +:+ ": ".

Definition is_finite (f : float64) : bool :=
  match f with
  | S754_zero _ | S754_finite _ _ _ => true
  | _ => false
  end.

Section Encoder.
Context `{GoLib}.

(** One record, as an object at nesting depth 1 of an indented array.
    [None]: the encoder rejects the value (a price that is NaN or an
    infinity, [UnsupportedValueError]). *)
Definition encode_carro (c : Carro) : option string :=
  if is_finite (Preco c) then
    Some ("  {" +:+ nl
      +:+ key "id" +:+ encode_string (ID c) +:+ "," +:+ nl
      +:+ key "marca" +:+ encode_string (Marca c) +:+ "," +:+ nl
      +:+ key "modelo" +:+ encode_string (Modelo c) +:+ "," +:+ nl
      +:+ key "ano" +:+ itoa (Ano c) +:+ "," +:+ nl
      +:+ key "cor" +:+ encode_string (Cor c) +:+ "," +:+ nl
      +:+ key "preco" +:+ FormatFloat (Preco c) +:+ "," +:+ nl
      +:+ key "pais_origem" +:+ encode_string (PaisOrigem c) +:+ "," +:+ nl
      +:+ key "data_cadastro" +:+ encode_string (DataCadastro c) +:+ nl
      +:+ "  }")
  else None.

Fixpoint encode_elems (l : list Carro) : option string :=
  match l with
  | [] => Some EmptyString
  | c :: r =>
      match encode_carro c, encode_elems r with
      | Some t, Some rest =>
          Some (t +:+ (match r with
                       | [] => nl
                       | _ => "," +:+ nl
                       end) +:+ rest)
      | _, _ => None
      end
  end.

(** [json.MarshalIndent] of the slice, empty prefix, two-space indent. *)
Definition MarshalIndent (s : slice) : option string :=
  match s with
  | None => Some "null"
  | Some [] => Some "[]"
  | Some l =>
      match encode_elems l with
      | Some body => Some ("[" +:+ nl +:+ body +:+ "]")
      | None => None
      end
  end.
End Encoder.


(** ** The world the program runs in *)

(** One reading of [time.Now()]: what the program takes from it. *)
Record Time := mkTime {
  UnixNano : Z;          (* [.UnixNano()] *)
  Year : Z;              (* [.Year()] *)
  FormatDate : string    (* [.Format("2006-01-02")] *)
}.

Inductive File :=
| Unreadable                 (* [os.ReadFile] fails with an error other than not-exist *)
| Content (data : string).

(** What the program prints, one constructor per print statement. *)
Inductive Msg :=
| MsgAddHeader
| MsgPrompt (field : string)
| MsgFieldError (field : string)
| MsgInputError
| MsgYearError (limit : Z)
| MsgPriceError
| MsgAdded (marca modelo id : string)
| MsgSaveWarning
| MsgEmptyList
| MsgListHeader
| MsgCarro (c : Carro)
| MsgNotFound (id : string)
| MsgFoundHeader
| MsgRemoved (id : string)
| MsgUpdateHeader (id : string)
| MsgCurrent (c : Carro)
| MsgKeep
| MsgInvalidYear
| MsgInvalidPrice
| MsgUpdated (id : string)
| MsgLoadWarning
| MsgLoaded (n : nat)
| MsgWelcome
| MsgHelp
| MsgMainPrompt
| MsgReadError
| MsgUsage (cmd : string)
| MsgBye
| MsgInvalidCommand.

Record World := mkWorld {
  stdin : list string;       (* the lines still to be read by [inputScanner] *)
  stdin_broken : bool;       (* the input ends with a read error, not with EOF *)
  token : string;            (* [inputScanner.Text()] *)
  scan_err : bool;           (* [inputScanner.Err() != nil] *)
  clock : nat -> Time;       (* the successive readings of [time.Now()] *)
  ticks : nat;               (* how many readings were taken *)
  files : gmap string File;  (* the file system, by path *)
  denied : gset string;      (* paths [os.WriteFile] cannot write *)
  stdout : list Msg          (* what was printed, oldest first *)
}.

(** A computation with effects on the world. *)
Definition IO (A : Type) : Type := World -> A * World.

Definition ret {A} (a : A) : IO A := fun w => (a, w).

Definition bind {A B} (m : IO A) (k : A -> IO B) : IO B :=
  fun w => let (a, w') := m w in k a w'.

Notation "'do' x <- m ; k" := (bind m (fun x => k))
  (at level 10, x pattern, m at level 99, k at level 200).
Notation "m ;; k" := (bind m (fun _ => k))
  (at level 100, k at level 200, right associativity).

Definition Print (m : Msg) : IO unit := fun w =>
  (tt, mkWorld (stdin w) (stdin_broken w) (token w) (scan_err w) (clock w) (ticks w)
         (files w) (denied w) (stdout w ++ [m])).

(** [inputScanner.Scan()]: the next line becomes the token; at the end of
    the input the token is empty and the read error, if any, is recorded. *)
Definition Scan : IO bool := fun w =>
  match stdin w with
  | l :: r =>
      (true, mkWorld r (stdin_broken w) l (scan_err w) (clock w) (ticks w)
               (files w) (denied w) (stdout w))
  | [] =>
      (false, mkWorld [] (stdin_broken w) EmptyString (stdin_broken w) (clock w) (ticks w)
                (files w) (denied w) (stdout w))
  end.

Definition ScanErr : IO bool := fun w => (scan_err w, w).
Definition Text : IO string := fun w => (token w, w).

(** [time.Now()]. *)
Definition Now : IO Time := fun w =>
  (clock w (ticks w),
   mkWorld (stdin w) (stdin_broken w) (token w) (scan_err w) (clock w) (S (ticks w))
     (files w) (denied w) (stdout w)).

Inductive ReadResult :=
| NotExist
| ReadError
| Data (data : string).

Definition ReadFile (path : string) : IO ReadResult := fun w =>
  (match files w !! path with
   | None => NotExist
   | Some Unreadable => ReadError
   | Some (Content d) => Data d
   end, w).

(** [os.WriteFile(path, data, 0644)]: [true] when the error is nil; the
    file then holds exactly [data]. *)
Definition WriteFile (path : string) (data : string) : IO bool := fun w =>
  if decide (path ∈ denied w) then (false, w)
  else
    (true, mkWorld (stdin w) (stdin_broken w) (token w) (scan_err w) (clock w) (ticks w)
             (<[path := Content data]> (files w)) (denied w) (stdout w)).

(** ** The registry *)

Record CadastroCarros := mkCadastro {
  carrosMap : gmap string Carro;   (* lookup by identifier *)
  carros : slice;                  (* ordered listing *)
  arquivoJSON : string             (* path of the JSON file *)
}.

Definition NewCadastroCarros (nomeArquivo : string) : CadastroCarros :=
  mkCadastro ∅ (Some []) nomeArquivo.

Section Program.
Context `{GoLib}.

Definition TrimSpace (s : string) : string :=
  if isASCII s then trim_right_ascii (trim_left_ascii s) else TrimSpaceUnicode s.

Definition ToLower (s : string) : string :=
  if isASCII s then lower_ascii s else ToLowerUnicode s.

Definition Fields (s : string) : list string :=
  if isASCII s then fields_ascii [] s else FieldsUnicode s.

(** The [readInput] helper of the two interactive operations: [None] is
    the error result. *)
Definition readInput (prompt : string) : IO (option string) :=
  Print (MsgPrompt prompt) ;;
  Scan ;;
  do e <- ScanErr ;
  if e then ret None
  else do t <- Text ; ret (Some (TrimSpace t)).

Definition SalvarJSON (c : CadastroCarros) : IO bool :=
  match MarshalIndent (carros c) with
  | None => ret false
  | Some data => WriteFile (arquivoJSON c) data
  end.

Definition save_and_warn (c : CadastroCarros) : IO unit :=
  do ok <- SalvarJSON c ;
  if ok then ret tt else Print MsgSaveWarning.

(** [err != nil || ano <= 0 || ano > time.Now().Year()+1], evaluated
    left to right: the clock is read only when the first two tests
    fail. *)
Definition year_rejected (a : option Z) : IO bool :=
  match a with
  | None => ret true
  | Some ano =>
      if ano <=? 0 then ret true
      else do t <- Now ; ret (Year t + 1 <? ano)
  end.

Definition price_rejected (p : option float64) : bool :=
  match p with
  | None => true
  | Some preco => SFleb preco f0
  end.

Definition AdicionarCarro (c : CadastroCarros) : IO CadastroCarros :=
  Print MsgAddHeader ;;
  do marca <- readInput "Marca: " ;
  match marca with
  | None | Some EmptyString => Print (MsgFieldError "Marca") ;; ret c
  | Some marca =>
  do modelo <- readInput "Modelo: " ;
  match modelo with
  | None | Some EmptyString => Print (MsgFieldError "Modelo") ;; ret c
  | Some modelo =>
  do anoStr <- readInput "Ano: " ;
  match anoStr with
  | None => Print MsgInputError ;; ret c
  | Some anoStr =>
  do bad <- year_rejected (Atoi anoStr) ;
  if bad then (do t <- Now ; Print (MsgYearError (Year t + 1)) ;; ret c)
  else
  let ano := default 0 (Atoi anoStr) in
  do corR <- readInput "Cor: " ;
  let cor := default EmptyString corR in
  do precoStr <- readInput "Preço (R$): " ;
  match precoStr with
  | None => Print MsgInputError ;; ret c
  | Some precoStr =>
  if price_rejected (ParseFloat precoStr) then Print MsgPriceError ;; ret c
  else
  let preco := default f0 (ParseFloat precoStr) in
  do paisOrigem <- readInput "País de Origem: " ;
  match paisOrigem with
  | None | Some EmptyString => Print (MsgFieldError "País de origem") ;; ret c
  | Some paisOrigem =>
  do t1 <- Now ;
  let id := "car_" +:+ itoa (UnixNano t1) in
  do t2 <- Now ;
  let dataCadastro := FormatDate t2 in
  let novoCarro := mkCarro id marca modelo ano cor preco paisOrigem dataCadastro in
  let c' := mkCadastro (<[id := novoCarro]> (carrosMap c))
              (append_slice (carros c) novoCarro) (arquivoJSON c) in
  Print (MsgAdded marca modelo id) ;;
  save_and_warn c' ;;
  ret c'
  end end end end end.

Definition ListarCarros (c : CadastroCarros) : IO unit :=
  match elems (carros c) with
  | [] => Print MsgEmptyList
  | l =>
      Print MsgListHeader ;;
      fold_left (fun k carro => k ;; Print (MsgCarro carro)) l (ret tt)
  end.

Definition BuscarCarro (id : string) (c : CadastroCarros) : IO unit :=
  match carrosMap c !! id with
  | None => Print (MsgNotFound id)
  | Some carro => Print MsgFoundHeader ;; Print (MsgCarro carro)
  end.

(** The loop of [RemoverCarro] that rebuilds the slice, starting from the
    nil slice [var novosCarros []Carro]. *)
Definition remove_loop (id : string) (l : list Carro) : slice :=
  fold_left (fun novos carro =>
               if decide (ID carro <> id) then append_slice novos carro else novos)
    l None.

Definition RemoverCarro (id : string) (c : CadastroCarros) : IO CadastroCarros :=
  match carrosMap c !! id with
  | None => Print (MsgNotFound id) ;; ret c
  | Some _ =>
      let c' := mkCadastro (delete id (carrosMap c))
                  (remove_loop id (elems (carros c))) (arquivoJSON c) in
      Print (MsgRemoved id) ;;
      save_and_warn c' ;;
      ret c'
  end.

Definition set_field (field newVal : string) (carro : Carro) : Carro :=
  if String.eqb field "Marca" then
    mkCarro (ID carro) newVal (Modelo carro) (Ano carro) (Cor carro) (Preco carro)
      (PaisOrigem carro) (DataCadastro carro)
  else if String.eqb field "Modelo" then
    mkCarro (ID carro) (Marca carro) newVal (Ano carro) (Cor carro) (Preco carro)
      (PaisOrigem carro) (DataCadastro carro)
  else if String.eqb field "Cor" then
    mkCarro (ID carro) (Marca carro) (Modelo carro) (Ano carro) newVal (Preco carro)
      (PaisOrigem carro) (DataCadastro carro)
  else if String.eqb field "País de Origem" then
    mkCarro (ID carro) (Marca carro) (Modelo carro) (Ano carro) (Cor carro) (Preco carro)
      newVal (DataCadastro carro)
  else carro.

(** The closure [updateOptional] of [AtualizarCarro]; the record it
    assigns to is passed in and returned. *)
Definition updateOptional (field : string) (validator : string -> option string)
    (carro : Carro) : IO Carro :=
  do opt <- readInput field ;
  match opt with
  | None => Print MsgKeep ;; ret carro
  | Some EmptyString => ret carro
  | Some opt =>
      match validator opt with
      | None => Print MsgKeep ;; ret carro
      | Some newVal => ret (set_field field newVal carro)
      end
  end.

Definition non_empty (s : string) : option string :=
  match s with
  | EmptyString => None
  | _ => Some s
  end.

Definition update_year (carro : Carro) : IO Carro :=
  do anoStr <- readInput "Ano" ;
  match anoStr with
  | None | Some EmptyString => ret carro
  | Some anoStr =>
      match Atoi anoStr with
      | None => Print MsgInvalidYear ;; ret carro
      | Some ano =>
          if 0 <? ano then
            do t <- Now ;
            if ano <=? Year t + 1 then
              ret (mkCarro (ID carro) (Marca carro) (Modelo carro) ano (Cor carro)
                     (Preco carro) (PaisOrigem carro) (DataCadastro carro))
            else Print MsgInvalidYear ;; ret carro
          else Print MsgInvalidYear ;; ret carro
      end
  end.

Definition update_price (carro : Carro) : IO Carro :=
  do precoStr <- readInput "Preço" ;
  match precoStr with
  | None | Some EmptyString => ret carro
  | Some precoStr =>
      match ParseFloat precoStr with
      | Some preco =>
          if SFltb f0 preco then
            ret (mkCarro (ID carro) (Marca carro) (Modelo carro) (Ano carro) (Cor carro)
                   preco (PaisOrigem carro) (DataCadastro carro))
          else Print MsgInvalidPrice ;; ret carro
      | None => Print MsgInvalidPrice ;; ret carro
      end
  end.

(** The prompts of [AtualizarCarro], in the order of the source. *)
Definition ask_fields (carro : Carro) : IO Carro :=
  do carro <- updateOptional "Marca" non_empty carro ;
  do carro <- updateOptional "Modelo" non_empty carro ;
  do carro <- update_year carro ;
  do carro <- updateOptional "Cor" Some carro ;
  do carro <- update_price carro ;
  updateOptional "País de Origem" non_empty carro.

(** The loop of [AtualizarCarro] that rebuilds the slice. *)
Definition update_loop (id : string) (carro : Carro) (l : list Carro) : slice :=
  fold_left (fun novos oldCarro =>
               if decide (ID oldCarro = id) then append_slice novos carro
               else append_slice novos oldCarro)
    l None.

Definition AtualizarCarro (id : string) (c : CadastroCarros) : IO CadastroCarros :=
  match carrosMap c !! id with
  | None => Print (MsgNotFound id) ;; ret c
  | Some carro =>
      Print (MsgUpdateHeader id) ;;
      Print (MsgCurrent carro) ;;
      do carro <- ask_fields carro ;
      let c' := mkCadastro (<[id := carro]> (carrosMap c))
                  (update_loop id carro (elems (carros c))) (arquivoJSON c) in
      Print (MsgUpdated id) ;;
      save_and_warn c' ;;
      ret c'
  end.

(** The loop of [CarregarJSON] that rebuilds the map. *)
Definition index_loop (l : list Carro) : gmap string Carro :=
  fold_left (fun m carro => <[ID carro := carro]> m) l ∅.

(** [CarregarJSON]: the flag is [true] when the error is nil. *)
Definition CarregarJSON (c : CadastroCarros) : IO (bool * CadastroCarros) :=
  do r <- ReadFile (arquivoJSON c) ;
  match r with
  | NotExist => ret (true, c)
  | ReadError => ret (false, c)
  | Data data =>
      match Unmarshal data with
      | None => ret (false, c)
      | Some cs => ret (true, mkCadastro (index_loop (elems cs)) cs (arquivoJSON c))
      end
  end.

(** ** The console loop *)

(** The branch of the [switch] of [main] a command line selects. *)
Inductive Call :=
| CallNone
| CallAdd
| CallList
| CallFind (id : string)
| CallRemove (id : string)
| CallUpdate (id : string)
| CallUsage (cmd : string)
| CallExit
| CallInvalid.

Definition with_arg (cmd : string) (args : list string) (k : string -> Call) : Call :=
  match args with
  | [] => CallUsage cmd
  | a :: _ => k a
  end.

Definition select (text : string) : Call :=
  let input := ToLower (TrimSpace text) in
  match Fields input with
  | [] => CallNone
  | cmd :: args =>
      if String.eqb cmd "add" then CallAdd
      else if String.eqb cmd "list" then CallList
      else if String.eqb cmd "find" then with_arg cmd args CallFind
      else if String.eqb cmd "remove" then with_arg cmd args CallRemove
      else if String.eqb cmd "update" then with_arg cmd args CallUpdate
      else if String.eqb cmd "exit" then CallExit
      else CallInvalid
  end.

(** Runs one branch; the flag is [false] when [main] returns. *)
Definition run (k : Call) (c : CadastroCarros) : IO (bool * CadastroCarros) :=
  match k with
  | CallNone => ret (true, c)
  | CallAdd => do c' <- AdicionarCarro c ; ret (true, c')
  | CallList => ListarCarros c ;; ret (true, c)
  | CallFind id => BuscarCarro id c ;; ret (true, c)
  | CallRemove id => do c' <- RemoverCarro id c ; ret (true, c')
  | CallUpdate id => do c' <- AtualizarCarro id c ; ret (true, c')
  | CallUsage cmd => Print (MsgUsage cmd) ;; ret (true, c)
  | CallExit => Print MsgBye ;; ret (false, c)
  | CallInvalid => Print MsgInvalidCommand ;; ret (true, c)
  end.

(** One turn of the [for] loop of [main]. *)
Definition turn (c : CadastroCarros) : IO (bool * CadastroCarros) :=
  Print MsgMainPrompt ;;
  do ok <- Scan ;
  if ok then do t <- Text ; run (select t) c
  else
    do e <- ScanErr ;
    (if e then Print MsgReadError else ret tt) ;;
    ret (false, c).

Fixpoint loop (fuel : nat) (c : CadastroCarros) : IO CadastroCarros :=
  match fuel with
  | O => ret c
  | S n =>
      do r <- turn c ;
      if fst r then loop n (snd r) else ret (snd r)
  end.

Definition main (fuel : nat) : IO CadastroCarros :=
  let cadastro := NewCadastroCarros "carros.json" in
  do r <- CarregarJSON cadastro ;
  (if fst r then
     match length (elems (carros (snd r))) with
     | O => ret tt
     | n => Print (MsgLoaded n)
     end
   else Print MsgLoadWarning) ;;
  Print MsgWelcome ;;
  Print MsgHelp ;;
  loop fuel (snd r).
End Program.

(** ** Sequences of registry operations *)

Inductive Op :=
| OpCreate
| OpUpdate (id : string)
| OpDelete (id : string)
| OpLoad.

Section Runs.
Context `{GoLib}.

Definition step (o : Op) (c : CadastroCarros) : IO CadastroCarros :=
  match o with
  | OpCreate => AdicionarCarro c
  | OpUpdate id => AtualizarCarro id c
  | OpDelete id => RemoverCarro id c
  | OpLoad => do r <- CarregarJSON c ; ret (snd r)
  end.

Fixpoint steps (os : list Op) (c : CadastroCarros) : IO CadastroCarros :=
  match os with
  | [] => ret c
  | o :: r => do c' <- step o c ; steps r c'
  end.
End Runs.

(** The identifiers of the listing, in order. *)
Definition ids (c : CadastroCarros) : list string := ID <$> elems (carros c).

(** How many records the program reported as registered. *)
Definition is_added (m : Msg) : bool :=
  match m with
  | MsgAdded _ _ _ => true
  | _ => false
  end.

Definition added (out : list Msg) : nat := length (List.filter is_added out).

(** [advance n w w']: from [w] to [w'] the clock was read [n] times, input
    may have been read and text printed, but no file was written and no
    record was reported as registered. *)
Definition advance (n : nat) (w w' : World) : Prop :=
  files w' = files w /\ clock w' = clock w /\ denied w' = denied w
  /\ ticks w' = (ticks w + n)%nat /\ added (stdout w') = added (stdout w).

(** What an operation that fails leaves alone. *)
Definition calm (w w' : World) : Prop := exists n, advance n w w'.

(** [took n k w w']: as [advance n w w'], with exactly [k] lines of input
    consumed. *)
Definition took (n k : nat) (w w' : World) : Prop :=
  advance n w w' /\ stdin w' = drop k (stdin w).

(** The answer typed to the [k]-th prompt from now on: the line, trimmed;
    empty once the input has ended. *)
Definition answer `{GoLib} (k : nat) (w : World) : string :=
  TrimSpace (hd EmptyString (drop k (stdin w))).

(** What a save may change: the files and the text printed. *)
Definition persisted (w w' : World) : Prop :=
  clock w' = clock w /\ denied w' = denied w /\ ticks w' = ticks w
  /\ added (stdout w') = added (stdout w).

(** ** The two views of the registry *)

(** The last record of the listing that carries the identifier [id]. *)
Definition latest (id : string) (l : list Carro) : option Carro :=
  last (filter (fun x => ID x = id) l).

(** The map sends every identifier to the last record of the listing that
    carries it, and to nothing else. *)
Definition synced (c : CadastroCarros) : Prop :=
  forall id, carrosMap c !! id = latest id (elems (carros c)).

(** [r] occurs exactly once in [l]. *)
Definition once (r : Carro) (l : list Carro) : Prop :=
  exists l1 l2, l = l1 ++ (r :: l2) /\ (r ∉ l1) /\ (r ∉ l2).

(** The two views hold the same records: every record of the map occurs
    exactly once in the listing, and every record of the listing is what
    the map holds for its identifier. *)
Definition same_records (c : CadastroCarros) : Prop :=
  (forall id r, carrosMap c !! id = Some r -> once r (elems (carros c)))
  /\ (forall r, r ∈ elems (carros c) -> carrosMap c !! ID r = Some r).

(** ** Valid records *)

(** The checks of the interactive operations, for a record in a world: the
    year was accepted against some reading of the clock taken so far. *)
Definition valid (w : World) (r : Carro) : Prop :=
  Marca r <> EmptyString /\ Modelo r <> EmptyString /\ PaisOrigem r <> EmptyString
  /\ 0 < Ano r
  /\ (exists k, (k < ticks w)%nat /\ Ano r <= Year (clock w k) + 1)
  /\ SFleb (Preco r) f0 = false.

(** What editing a record may do: the identifier and the registration date
    stay, nothing is saved, and a valid record stays valid. *)
Definition kept (w : World) (carro : Carro) (w' : World) (carro' : Carro) : Prop :=
  ID carro' = ID carro /\ DataCadastro carro' = DataCadastro carro
  /\ calm w w' /\ (valid w carro -> valid w' carro').

(** The clock is the same and no reading was taken back. *)
Definition later (w w' : World) : Prop :=
  clock w' = clock w /\ (ticks w <= ticks w')%nat.

(** Every record of either view is valid. *)
Definition all_valid (w : World) (c : CadastroCarros) : Prop :=
  (forall r, r ∈ elems (carros c) -> valid w r)
  /\ (forall id r, carrosMap c !! id = Some r -> valid w r).

(** ** A library and worlds to run the program in *)

(** A library that reads and writes prices that are whole numbers, and
    leaves strings holding bytes outside ASCII as they are. *)
(** The [float64] nearest to a whole number. *)
Definition whole (z : Z) : float64 := binary_normalize 53 1024 z 0 false.

Definition whole_ParseFloat (s : string) : option float64 :=
  match Atoi s with
  | Some z => Some (whole z)
  | None => None
  end.

Definition whole_FormatFloat (f : float64) : string :=
  match f with
  | S754_finite s m e =>
      let v := if 0 <=? e then Z.pos m * 2 ^ e else Z.pos m / 2 ^ (- e) in
      itoa (if s then - v else v)
  | _ => "0"
  end.

Definition whole_lib : GoLib :=
  {| ParseFloat := whole_ParseFloat;
     FormatFloat := whole_FormatFloat;
     TrimSpaceUnicode := fun s => s;
     ToLowerUnicode := fun s => s;
     FieldsUnicode := fun s => [s];
     Unmarshal := fun _ => None |}.

(** A clock that advances by one nanosecond at each reading, and one that
    stands still. *)
Definition running_clock (n : nat) : Time :=
  mkTime (1714557600000000000 + Z.of_nat n) 2024 "2024-05-01".

Definition frozen_clock (n : nat) : Time :=
  mkTime 1714557600000000000 2024 "2024-05-01".

(** A world with the given input and clock, no file and nothing printed. *)
Definition world_of (input : list string) (clk : nat -> Time) : World :=
  mkWorld input false EmptyString false clk 0 ∅ ∅ [].

(** The answers to the prompts of one registration. *)
Definition corolla : list string := ["Toyota"; "Corolla"; "2020"; "Prata"; "95000"; "Japão"].
Definition civic : list string := ["Honda"; "Civic"; "2021"; ""; "120000"; "Japão"].

(** Records and registries to run the operations on. *)
Definition car_a : Carro :=
  mkCarro "car_1" "Toyota" "Corolla" 2020 "Prata" (whole 95000) "Japão" "2024-05-01".
Definition car_b : Carro :=
  mkCarro "car_2" "Honda" "Civic" 2021 EmptyString (whole 120000) "Japão" "2024-05-02".
Definition car_a2 : Carro :=
  mkCarro "car_1" "BMW" "X5" 2022 "Preto" (whole 450000) "Alemanha" "2024-05-03".

(** A registry whose listing holds the identifier [car_1] twice. *)
Definition duplicated : CadastroCarros :=
  mkCadastro (index_loop [car_a; car_b; car_a2]) (Some [car_a; car_b; car_a2]) "carros.json".

(** A registry with one record. *)
Definition single : CadastroCarros :=
  mkCadastro (index_loop [car_a]) (Some [car_a]) "carros.json".

(** The world after the messages [out] were printed. *)
Definition printed (w : World) (out : list Msg) : World :=
  mkWorld (stdin w) (stdin_broken w) (token w) (scan_err w) (clock w) (ticks w)
    (files w) (denied w) (stdout w ++ out).

(** Every price of the slice can be written as a JSON number. *)
Definition encodable (s : slice) : Prop :=
  Forall (fun c => is_finite (Preco c) = true) (elems s).

(** The world after [data] was written to [path]: that file holds exactly
    [data], the other files are as before. *)
Definition written (w : World) (path data : string) : World :=
  mkWorld (stdin w) (stdin_broken w) (token w) (scan_err w) (clock w) (ticks w)
    (<[path := Content data]> (files w)) (denied w) (stdout w).

(** The identifier [id] was made from a reading of the clock taken so far. *)
Definition minted (w : World) (id : string) : Prop :=
  exists k, (k < ticks w)%nat /\ id = ("car_" +:+ itoa (UnixNano (clock w k)))%string.

(** No two readings of the clock give the same nanosecond. *)
Definition distinct_nanos (w : World) : Prop :=
  forall i j, UnixNano (clock w i) = UnixNano (clock w j) -> i = j.

(** No input was put back: the input left is at most as long as before. *)
Definition shorter (w w' : World) : Prop := (length (stdin w') <= length (stdin w))%nat.

(** No byte of the list is an upper-case letter. *)
Fixpoint no_upper (l : list ascii) : bool :=
  match l with
  | [] => true
  | c :: r => negb (is_upper c) && no_upper r
  end.

(** Bytes that a command line passes through unchanged: ASCII, neither
    white space nor an upper-case letter. *)
Definition plain_byte (c : ascii) : bool :=
  is_ascii_byte c && negb (asciiSpace c) && negb (is_upper c).

Fixpoint plain (s : string) : bool :=
  match s with
  | EmptyString => true
  | String c r => plain_byte c && plain r
  end.

(** A library that also reads the text [NaN] as a price, as
    [strconv.ParseFloat] does. *)
Definition nan_lib : GoLib :=
  {| ParseFloat := fun s => if String.eqb s "NaN" then Some S754_nan else whole_ParseFloat s;
     FormatFloat := whole_FormatFloat;
     TrimSpaceUnicode := fun s => s;
     ToLowerUnicode := fun s => s;
     FieldsUnicode := fun s => [s];
     Unmarshal := fun _ => None |}.

(** The record [c] with the six fields that an update may set. *)
Definition with_fields (c : Carro) (marca modelo : string) (ano : Z) (cor : string)
    (preco : float64) (pais : string) : Carro :=
  mkCarro (ID c) marca modelo ano cor preco pais (DataCadastro c).

(** What an update prompt makes of an answer: a blank answer keeps the
    current value. *)
Definition choose (typed current : string) : string :=
  match typed with
  | EmptyString => current
  | _ => typed
  end.

(** A year typed is taken when it is a number from 1 to [limit]. *)
Definition choose_year (typed : string) (limit current : Z) : Z :=
  match typed with
  | EmptyString => current
  | _ =>
      match Atoi typed with
      | Some a => if (0 <? a) && (a <=? limit) then a else current
      | None => current
      end
  end.

(** A price typed is taken when it is a number above zero. *)
Definition choose_price `{GoLib} (typed : string) (current : float64) : float64 :=
  match typed with
  | EmptyString => current
  | _ =>
      match ParseFloat typed with
      | Some p => if SFltb f0 p then p else current
      | None => current
      end
  end.

(** The input can be read: no read error so far and a line is waiting. *)
Definition waiting (w : World) (l : string) (rest : list string) : Prop :=
  scan_err w = false /\ stdin w = l :: rest.

(** * Properties *)

Lemma advance_refl w : advance 0 w w.
Proof. unfold advance; repeat split; auto. Qed.

Lemma advance_trans n m w1 w2 w3 :
  advance n w1 w2 -> advance m w2 w3 -> advance (n + m) w1 w3.
Proof.
  unfold advance. intros (?&?&?&?&?) (?&?&?&?&?).
  repeat split; try congruence; lia.
Qed.

Lemma advance_calm n w w' : advance n w w' -> calm w w'.
Proof. intros; exists n; assumption. Qed.

Lemma added_app out m : added (out ++ [m]) = (added out + (if is_added m then 1 else 0))%nat.
Proof.
  unfold added. rewrite List.filter_app, length_app. simpl.
  destruct (is_added m); reflexivity.
Qed.

Lemma Print_advance m w u w' :
  Print m w = (u, w') -> is_added m = false -> advance 0 w w'.
Proof.
  unfold Print. intros [= _ <-] Hm. unfold advance; simpl.
  rewrite added_app, Hm. repeat split; auto; lia.
Qed.

Lemma Now_advance w t w' :
  Now w = (t, w') -> t = clock w (ticks w) /\ advance 1 w w'.
Proof.
  unfold Now. intros [= <- <-]. split; [reflexivity|].
  unfold advance; simpl. repeat split; auto; lia.
Qed.

Lemma took_refl w : took 0 0 w w.
Proof. split; [apply advance_refl|reflexivity]. Qed.

Lemma took_trans n m k j w1 w2 w3 :
  took n k w1 w2 -> took m j w2 w3 -> took (n + m) (k + j) w1 w3.
Proof.
  intros [H1 E1] [H2 E2]. split; [eapply advance_trans; eassumption|].
  rewrite E2, E1. apply drop_drop.
Qed.

Lemma took_calm n k w w' : took n k w w' -> calm w w'.
Proof. intros [Ha _]. exists n. assumption. Qed.

Lemma Print_took m w u w' :
  Print m w = (u, w') -> is_added m = false -> took 0 0 w w'.
Proof.
  intros E Hm. split; [eapply Print_advance; eassumption|].
  unfold Print in E. injection E as _ <-. reflexivity.
Qed.

Lemma Now_took w t w' :
  Now w = (t, w') -> t = clock w (ticks w) /\ took 1 0 w w'.
Proof.
  intros E. destruct (Now_advance _ _ _ E) as [-> Ha].
  split; [reflexivity|]. split; [assumption|].
  unfold Now in E. injection E as <-. reflexivity.
Qed.

Section ProgramFacts.
Context `{GoLib}.

(** What [readInput] returns and how it leaves the world. *)
Lemma readInput_eq p w :
  readInput p w =
  match stdin w with
  | l :: r =>
      (if scan_err w then None else Some (TrimSpace l),
       mkWorld r (stdin_broken w) l (scan_err w) (clock w) (ticks w) (files w)
         (denied w) (stdout w ++ [MsgPrompt p]))
  | [] =>
      (if stdin_broken w then None else Some (TrimSpace EmptyString),
       mkWorld [] (stdin_broken w) EmptyString (stdin_broken w) (clock w) (ticks w)
         (files w) (denied w) (stdout w ++ [MsgPrompt p]))
  end.
Proof.
  unfold readInput, bind, Print, Scan, ScanErr, Text, ret; simpl.
  destruct (stdin w); simpl.
  - destruct (stdin_broken w); reflexivity.
  - destruct (scan_err w); reflexivity.
Qed.

Lemma readInput_advance p w r w' : readInput p w = (r, w') -> advance 0 w w'.
Proof.
  rewrite readInput_eq. unfold advance.
  destruct (stdin w); intros [= _ <-]; simpl; rewrite added_app; simpl;
    repeat split; auto; lia.
Qed.

Lemma readInput_took p w r w' :
  readInput p w = (r, w') ->
  took 0 1 w w' /\ (forall s, r = Some s -> s = answer 0 w).
Proof.
  intros E. pose proof (readInput_advance _ _ _ _ E) as Ha.
  rewrite readInput_eq in E. unfold took, answer. rewrite drop_0.
  destruct (stdin w) as [|l rest]; inversion E; subst; simpl.
  - split; [split; [exact Ha|reflexivity]|].
    intros s. destruct (stdin_broken w); congruence.
  - split; [split; [exact Ha|reflexivity]|].
    intros s. destruct (scan_err w); congruence.
Qed.

Lemma year_rejected_spec a w b w' :
  year_rejected a w = (b, w') ->
  (b = true /\ exists n, took n 0 w w')
  \/ (b = false /\ took 1 0 w w'
      /\ exists ano, a = Some ano /\ 0 < ano <= Year (clock w (ticks w)) + 1).
Proof.
  unfold year_rejected, bind, ret. destruct a as [ano|].
  - destruct (ano <=? 0) eqn:E0.
    + intros [= <- <-]. left. split; [reflexivity|]. exists 0%nat. apply took_refl.
    + destruct (Now w) as [t w1] eqn:EN. apply Now_took in EN as [-> Hadv].
      intros [= <- <-].
      destruct (Year (clock w (ticks w)) + 1 <? ano) eqn:E1.
      * left. split; [reflexivity|]. exists 1%nat. assumption.
      * right. split; [reflexivity|]. split; [assumption|].
        exists ano. split; [reflexivity|lia].
  - intros [= <- <-]. left. split; [reflexivity|]. exists 0%nat. apply took_refl.
Qed.

Lemma SalvarJSON_persisted c w ok w' : SalvarJSON c w = (ok, w') -> persisted w w'.
Proof.
  unfold SalvarJSON, WriteFile, ret, persisted.
  destruct (MarshalIndent (carros c)); [case_decide|]; intros [= _ <-]; simpl; auto.
Qed.

Lemma save_and_warn_persisted c w u w' : save_and_warn c w = (u, w') -> persisted w w'.
Proof.
  unfold save_and_warn, bind, ret.
  destruct (SalvarJSON c w) as [ok w1] eqn:ES. apply SalvarJSON_persisted in ES.
  destruct ok.
  - intros [= _ <-]. assumption.
  - unfold Print. intros [= _ <-]. unfold persisted in *; simpl.
    rewrite added_app; simpl. destruct ES as (?&?&?&?). repeat split; auto; lia.
Qed.
End ProgramFacts.

(** Stepping through the interactive operations: [Hacc] relates the
    world at entry to the current one. *)
Ltac fail_print :=
  cbv beta iota;
  match goal with
  | Hacc : took ?n ?k ?w0 ?w1 |- context [Print ?m ?w1] =>
      let u := fresh "u" in let w2 := fresh "w" in let E := fresh "E" in
      destruct (Print m w1) as [u w2] eqn:E;
      apply Print_took in E; [|reflexivity];
      intros [= <- <-];
      left; split; [reflexivity|];
      eapply took_calm, took_trans; [exact Hacc|exact E]
  end.

Ltac read_next r w2 Hr :=
  cbv beta iota;
  match goal with
  | Hacc : took ?n ?k ?w0 ?w1 |- context [readInput ?p ?w1] =>
      let E := fresh "E" in
      destruct (readInput p w1) as [r w2] eqn:E;
      apply readInput_took in E as [E Hr];
      unfold answer in Hr; rewrite drop_0, (proj2 Hacc) in Hr;
      let Hn := fresh "Hacc" in
      pose proof (took_trans _ _ _ _ _ _ _ Hacc E) as Hn; clear Hacc E; simpl in Hn;
      rename Hn into Hacc
  end.

Section Operations.
Context `{GoLib}.

(** [AdicionarCarro] either changes nothing or registers one valid record,
    built from the answers to its prompts. *)
Lemma AdicionarCarro_cases c w c' w' :
  AdicionarCarro c w = (c', w') ->
  (c' = c /\ calm w w')
  \/ exists novo,
      c' = mkCadastro (<[ID novo := novo]> (carrosMap c))
             (append_slice (carros c) novo) (arquivoJSON c)
      /\ Marca novo <> EmptyString /\ Modelo novo <> EmptyString
      /\ PaisOrigem novo <> EmptyString
      /\ 0 < Ano novo <= Year (clock w (ticks w)) + 1
      /\ SFleb (Preco novo) f0 = false
      /\ ID novo = ("car_" +:+ itoa (UnixNano (clock w (S (ticks w)))))%string
      /\ DataCadastro novo = FormatDate (clock w (S (S (ticks w))))
      /\ (Marca novo = answer 0 w /\ Modelo novo = answer 1 w
          /\ Atoi (answer 2 w) = Some (Ano novo)
          /\ ParseFloat (answer 4 w) = Some (Preco novo)
          /\ PaisOrigem novo = answer 5 w)
      /\ clock w' = clock w /\ denied w' = denied w
      /\ ticks w' = (ticks w + 3)%nat
      /\ added (stdout w') = S (added (stdout w)).
Proof.
  unfold AdicionarCarro, bind, ret.
  destruct (Print MsgAddHeader w) as [u w0] eqn:E0.
  apply Print_took in E0 as Hacc; [|reflexivity]. clear E0.
  read_next marca w1 Hmarca. destruct marca as [[|a0 s0]|]; try fail_print.
  read_next modelo w2 Hmodelo. destruct modelo as [[|a1 s1]|]; try fail_print.
  read_next anoR w3 HanoS. destruct anoR as [anoStr|]; try fail_print.
  destruct (year_rejected (Atoi anoStr) w3) as [bad w4] eqn:EY.
  apply year_rejected_spec in EY as [[-> [k Hk]]|(-> & Hk & ano & Hano & Hrange)].
  { destruct (Now w4) as [t w5] eqn:EN. apply Now_took in EN as [_ EN].
    pose proof (took_trans _ _ _ _ _ _ _ (took_trans _ _ _ _ _ _ _ Hacc Hk) EN) as Hacc'.
    clear Hacc. fail_print. }
  pose proof Hacc as ((_ & Hc3 & _ & Ht3 & _) & _). rewrite Nat.add_0_r in Ht3.
  pose proof (took_trans _ _ _ _ _ _ _ Hacc Hk) as Hacc'. clear Hacc Hk.
  rename Hacc' into Hacc. simpl in Hacc.
  rewrite Hano. simpl default.
  read_next cor w5 Hcor. read_next precoR w6 HprecoS.
  destruct precoR as [precoStr|]; try fail_print.
  unfold price_rejected.
  destruct (ParseFloat precoStr) as [preco|] eqn:EP; try fail_print.
  destruct (SFleb preco f0) eqn:Eleb; try fail_print.
  simpl default.
  read_next pais w7 Hpais. destruct pais as [[|a2 s2]|]; try fail_print.
  cbv beta iota. destruct (Now w7) as [t1 w8] eqn:EN1. apply Now_took in EN1 as [-> [EN1 _]].
  destruct (Now w8) as [t2 w9] eqn:EN2. apply Now_took in EN2 as [-> [EN2 _]].
  match goal with |- context [Print ?m w9] => destruct (Print m w9) as [u1 w10] eqn:EPr end.
  match goal with |- context [save_and_warn ?x w10] =>
    destruct (save_and_warn x w10) as [u2 w11] eqn:ES end.
  apply save_and_warn_persisted in ES.
  intros [= <- <-]. right.
  eexists (mkCarro _ _ _ _ _ _ _ _). split; [reflexivity|]. simpl.
  destruct Hacc as ((_ & Hc7 & Hd7 & Ht7 & Ha7) & _).
  destruct EN1 as (_ & Hc8 & Hd8 & Ht8 & Ha8).
  destruct EN2 as (_ & Hc9 & Hd9 & Ht9 & Ha9).
  destruct ES as (Hc11 & Hd11 & Ht11 & Ha11).
  unfold Print in EPr. injection EPr as _ <-. simpl in *.
  rewrite added_app in Ha11. simpl in Ha11.
  rewrite Hc3, Ht3 in *.
  rewrite Ht8, Ht7, Hc8, Hc7.
  replace (ticks w + 1)%nat with (S (ticks w)) by lia.
  replace (S (ticks w) + 1)%nat with (S (S (ticks w))) by lia.
  unfold answer.
  rewrite <- (Hmarca _ eq_refl), <- (Hmodelo _ eq_refl), <- (HanoS _ eq_refl),
    <- (HprecoS _ eq_refl), <- (Hpais _ eq_refl).
  repeat split; try congruence; try lia.
Qed.
End Operations.

(** ** The loops that rebuild the two views *)

Lemma remove_loop_from id l acc :
  fold_left (fun novos carro =>
               if decide (ID carro <> id) then append_slice novos carro else novos) l acc
  = match filter (fun x => ID x <> id) l with
    | [] => acc
    | kept => Some (elems acc ++ kept)
    end.
Proof.
  revert acc. induction l as [|x l IH]; intros acc; simpl; [reflexivity|].
  rewrite IH, filter_cons. case_decide; simpl.
  - destruct (filter _ l); unfold append_slice; simpl; [reflexivity|].
    rewrite <- ?app_assoc. reflexivity.
  - reflexivity.
Qed.

Lemma elems_remove_loop id l :
  elems (remove_loop id l) = filter (fun x => ID x <> id) l.
Proof.
  unfold remove_loop. rewrite remove_loop_from.
  destruct (filter _ l); reflexivity.
Qed.

Lemma update_loop_from id carro l acc :
  fold_left (fun novos oldCarro =>
               if decide (ID oldCarro = id) then append_slice novos carro
               else append_slice novos oldCarro) l acc
  = match l with
    | [] => acc
    | _ => Some (elems acc ++ ((fun x => if decide (ID x = id) then carro else x) <$> l))
    end.
Proof.
  revert acc. induction l as [|x l IH]; intros acc; simpl; [reflexivity|].
  rewrite IH. clear IH. unfold append_slice.
  destruct l; simpl; case_decide; simpl; rewrite <- ?app_assoc; reflexivity.
Qed.

Lemma elems_update_loop id carro l :
  elems (update_loop id carro l)
  = (fun x => if decide (ID x = id) then carro else x) <$> l.
Proof.
  unfold update_loop. rewrite update_loop_from. destruct l; reflexivity.
Qed.

Lemma latest_app id l x :
  latest id (l ++ [x]) = if decide (ID x = id) then Some x else latest id l.
Proof.
  unfold latest. rewrite filter_app, filter_cons, filter_nil.
  case_decide.
  - apply last_snoc.
  - rewrite app_nil_r. reflexivity.
Qed.

Lemma index_loop_from l (m : gmap string Carro) id :
  fold_left (fun (m : gmap string Carro) carro => <[ID carro := carro]> m) l m !! id
  = match latest id l with
    | Some r => Some r
    | None => m !! id
    end.
Proof.
  revert m. induction l as [|x l IH] using rev_ind; intros m; [reflexivity|].
  rewrite fold_left_app, latest_app. simpl.
  case_decide as Hx.
  - subst id. apply lookup_insert_eq.
  - rewrite lookup_insert_ne by assumption. apply IH.
Qed.

Lemma index_loop_lookup l id : index_loop l !! id = latest id l.
Proof.
  unfold index_loop. rewrite index_loop_from, lookup_empty.
  destruct (latest id l); reflexivity.
Qed.

(** ** Editing a record *)

Lemma calm_refl w : calm w w.
Proof. exists 0%nat. apply advance_refl. Qed.

Lemma calm_trans w1 w2 w3 : calm w1 w2 -> calm w2 w3 -> calm w1 w3.
Proof. intros [n Hn] [m Hm]. exists (n + m)%nat. eapply advance_trans; eassumption. Qed.

Lemma valid_mono w w' r : calm w w' -> valid w r -> valid w' r.
Proof.
  intros [n (_ & Hc & _ & Ht & _)] (Hm & Hmo & Hp & H0 & (k & Hk & Hy) & Hpr).
  repeat split; try assumption.
  exists k. rewrite Hc, Ht. split; [lia|assumption].
Qed.

Lemma SFltb_SFleb p : SFltb f0 p = true -> SFleb p f0 = false.
Proof. destruct p as [[]|[]| |[] m e]; cbv; intros; congruence. Qed.

Lemma kept_refl w carro : kept w carro w carro.
Proof. split; [|split; [|split]]; auto using calm_refl. Qed.

Lemma kept_trans w1 c1 w2 c2 w3 c3 :
  kept w1 c1 w2 c2 -> kept w2 c2 w3 c3 -> kept w1 c1 w3 c3.
Proof.
  intros (?&?&?&?) (?&?&?&?).
  split; [|split; [|split]]; try congruence; eauto using calm_trans.
Qed.

Lemma set_field_kept w field newVal carro :
  newVal <> EmptyString \/ field = "Cor" ->
  kept w carro w (set_field field newVal carro).
Proof.
  intros Hv. unfold set_field.
  destruct (String.eqb field "Marca") eqn:E1;
    [|destruct (String.eqb field "Modelo") eqn:E2;
      [|destruct (String.eqb field "Cor") eqn:E3;
        [|destruct (String.eqb field "País de Origem") eqn:E4]]];
    try apply kept_refl;
    (split; [reflexivity|split; [reflexivity|split; [apply calm_refl|]]]);
    intros (Hm & Hmo & Hp & H0 & Hk & Hpr); repeat split; simpl; try assumption;
    destruct Hv as [Hv|Hv]; try assumption; subst field; discriminate.
Qed.

Section Editing.
Context `{GoLib}.

Lemma kept_calm w carro w' : calm w w' -> kept w carro w' carro.
Proof.
  intros Hc. split; [|split; [|split]]; auto. intros Hv. eapply valid_mono; eassumption.
Qed.

Lemma kept_print w carro m u w1 w2 :
  calm w w1 -> Print m w1 = (u, w2) -> is_added m = false -> kept w carro w2 carro.
Proof.
  intros Hc HP Hm. apply kept_calm. eapply calm_trans; [exact Hc|].
  eapply advance_calm, Print_advance; eassumption.
Qed.

Lemma updateOptional_kept field validator carro w carro' w' :
  (forall opt newVal, validator opt = Some newVal ->
     opt <> EmptyString -> newVal <> EmptyString \/ field = "Cor") ->
  updateOptional field validator carro w = (carro', w') ->
  kept w carro w' carro'.
Proof.
  intros Hval. unfold updateOptional, bind, ret.
  destruct (readInput field w) as [opt w1] eqn:ER.
  apply readInput_advance, advance_calm in ER.
  destruct opt as [[|a s]|].
  - intros [= <- <-]. apply kept_calm, ER.
  - destruct (validator (String a s)) as [newVal|] eqn:EV.
    + intros [= <- <-]. eapply kept_trans; [apply kept_calm, ER|].
      apply set_field_kept. eapply Hval; [eassumption|discriminate].
    + destruct (Print MsgKeep w1) as [u w2] eqn:EP. intros [= <- <-].
      eapply kept_print; [exact ER|exact EP|reflexivity].
  - destruct (Print MsgKeep w1) as [u w2] eqn:EP. intros [= <- <-].
    eapply kept_print; [exact ER|exact EP|reflexivity].
Qed.

Lemma non_empty_ok field opt newVal :
  non_empty opt = Some newVal -> opt <> EmptyString ->
  newVal <> EmptyString \/ field = "Cor".
Proof. destruct opt; simpl; [discriminate|]. intros [= <-] _. left. discriminate. Qed.

Lemma update_year_kept carro w carro' w' :
  update_year carro w = (carro', w') -> kept w carro w' carro'.
Proof.
  unfold update_year, bind, ret.
  destruct (readInput "Ano" w) as [r w1] eqn:ER.
  pose proof (readInput_advance _ _ _ _ ER) as Hadv.
  pose proof (advance_calm _ _ _ Hadv) as Hc.
  destruct r as [[|a s]|]; try (intros [= <- <-]; apply kept_calm, Hc).
  destruct (Atoi (String a s)) as [ano|].
  - destruct (0 <? ano) eqn:E0.
    + destruct (Now w1) as [t w2] eqn:EN. apply Now_advance in EN as [-> EN].
      pose proof (calm_trans _ _ _ Hc (advance_calm _ _ _ EN)) as Hc2.
      destruct (ano <=? Year (clock w1 (ticks w1)) + 1) eqn:E1.
      * intros [= <- <-].
        split; [reflexivity|split; [reflexivity|split; [exact Hc2|]]].
        intros (Hm & Hmo & Hp & _ & _ & Hpr).
        repeat split; simpl; try assumption; try lia.
        exists (ticks w1). destruct EN as (_ & Hck & _ & Htk & _).
        rewrite Hck, Htk. split; lia.
      * destruct (Print MsgInvalidYear w2) as [u w3] eqn:EP. intros [= <- <-].
        eapply kept_print; [exact Hc2|exact EP|reflexivity].
    + destruct (Print MsgInvalidYear w1) as [u w3] eqn:EP. intros [= <- <-].
      eapply kept_print; [exact Hc|exact EP|reflexivity].
  - destruct (Print MsgInvalidYear w1) as [u w3] eqn:EP. intros [= <- <-].
    eapply kept_print; [exact Hc|exact EP|reflexivity].
Qed.

Lemma update_price_kept carro w carro' w' :
  update_price carro w = (carro', w') -> kept w carro w' carro'.
Proof.
  unfold update_price, bind, ret.
  destruct (readInput "Preço" w) as [r w1] eqn:ER.
  apply readInput_advance, advance_calm in ER.
  destruct r as [[|a s]|]; try (intros [= <- <-]; apply kept_calm, ER).
  destruct (ParseFloat (String a s)) as [preco|].
  - destruct (SFltb f0 preco) eqn:E0.
    + intros [= <- <-].
      split; [reflexivity|split; [reflexivity|split; [exact ER|]]].
      intros Hv. apply (valid_mono _ _ _ ER) in Hv.
      destruct Hv as (Hm & Hmo & Hp & Ha & Hk & _).
      repeat split; simpl; try assumption. apply SFltb_SFleb, E0.
    + destruct (Print MsgInvalidPrice w1) as [u w3] eqn:EP. intros [= <- <-].
      eapply kept_print; [exact ER|exact EP|reflexivity].
  - destruct (Print MsgInvalidPrice w1) as [u w3] eqn:EP. intros [= <- <-].
    eapply kept_print; [exact ER|exact EP|reflexivity].
Qed.

Lemma ask_fields_kept carro w carro' w' :
  ask_fields carro w = (carro', w') -> kept w carro w' carro'.
Proof.
  unfold ask_fields, bind.
  destruct (updateOptional "Marca" non_empty carro w) as [c1 w1] eqn:E1.
  destruct (updateOptional "Modelo" non_empty c1 w1) as [c2 w2] eqn:E2.
  destruct (update_year c2 w2) as [c3 w3] eqn:E3.
  destruct (updateOptional "Cor" Some c3 w3) as [c4 w4] eqn:E4.
  destruct (update_price c4 w4) as [c5 w5] eqn:E5.
  intros E6.
  apply updateOptional_kept in E1; [|apply non_empty_ok].
  apply updateOptional_kept in E2; [|apply non_empty_ok].
  apply update_year_kept in E3.
  apply updateOptional_kept in E4; [|intros; right; reflexivity].
  apply update_price_kept in E5.
  apply updateOptional_kept in E6; [|apply non_empty_ok].
  do 5 (eapply kept_trans; [eassumption|]). assumption.
Qed.
End Editing.

(** ** What each operation does to the registry *)

Lemma calm_later w w' : calm w w' -> later w w'.
Proof. intros [n (_ & Hc & _ & Ht & _)]. split; [assumption|lia]. Qed.

Lemma persisted_later w w' : persisted w w' -> later w w'.
Proof. intros (Hc & _ & Ht & _). split; [assumption|lia]. Qed.

Lemma later_refl w : later w w.
Proof. split; [reflexivity|lia]. Qed.

Lemma later_trans w1 w2 w3 : later w1 w2 -> later w2 w3 -> later w1 w3.
Proof. intros [? ?] [? ?]. split; [congruence|lia]. Qed.

Lemma valid_later w w' r : later w w' -> valid w r -> valid w' r.
Proof.
  intros [Hc Ht] (Hm & Hmo & Hp & H0 & (k & Hk & Hy) & Hpr).
  repeat split; try assumption.
  exists k. rewrite Hc. split; [lia|assumption].
Qed.

Lemma Print_persisted m w u w' :
  Print m w = (u, w') -> is_added m = false -> persisted w w'.
Proof.
  unfold Print. intros [= _ <-] Hm. unfold persisted; simpl.
  rewrite added_app, Hm. repeat split; auto; lia.
Qed.

Lemma persisted_trans w1 w2 w3 : persisted w1 w2 -> persisted w2 w3 -> persisted w1 w3.
Proof.
  unfold persisted. intros (?&?&?&?) (?&?&?&?). repeat split; congruence.
Qed.

Section OperationSpecs.
Context `{GoLib}.

Lemma RemoverCarro_spec id c w c' w' :
  RemoverCarro id c w = (c', w') ->
  (carrosMap c !! id = None /\ c' = c /\ w' = snd (Print (MsgNotFound id) w))
  \/ (is_Some (carrosMap c !! id)
      /\ c' = mkCadastro (delete id (carrosMap c))
                (remove_loop id (elems (carros c))) (arquivoJSON c)
      /\ persisted w w').
Proof.
  unfold RemoverCarro, bind, ret. destruct (carrosMap c !! id) as [r|] eqn:E.
  - destruct (Print (MsgRemoved id) w) as [u w1] eqn:EP.
    apply Print_persisted in EP; [|reflexivity].
    match goal with |- context [save_and_warn ?x w1] =>
      destruct (save_and_warn x w1) as [u2 w2] eqn:ES end.
    apply save_and_warn_persisted in ES.
    intros [= <- <-]. right. split; [eauto|]. split; [reflexivity|].
    eapply persisted_trans; eassumption.
  - destruct (Print (MsgNotFound id) w) as [u w1] eqn:EP.
    intros [= <- <-]. left. auto.
Qed.

Lemma AtualizarCarro_spec id c w c' w' :
  AtualizarCarro id c w = (c', w') ->
  (carrosMap c !! id = None /\ c' = c /\ w' = snd (Print (MsgNotFound id) w))
  \/ (exists carro carro' w1,
        carrosMap c !! id = Some carro
        /\ kept w carro w1 carro'
        /\ c' = mkCadastro (<[id := carro']> (carrosMap c))
                  (update_loop id carro' (elems (carros c))) (arquivoJSON c)
        /\ persisted w1 w').
Proof.
  unfold AtualizarCarro, bind, ret. destruct (carrosMap c !! id) as [carro|] eqn:E.
  - destruct (Print (MsgUpdateHeader id) w) as [u0 w0] eqn:EP0.
    apply Print_advance in EP0; [|reflexivity].
    destruct (Print (MsgCurrent carro) w0) as [u1 w1] eqn:EP1.
    apply Print_advance in EP1; [|reflexivity].
    destruct (ask_fields carro w1) as [carro' w2] eqn:EA.
    apply ask_fields_kept in EA.
    destruct (Print (MsgUpdated id) w2) as [u3 w3] eqn:EP3.
    apply Print_persisted in EP3; [|reflexivity].
    match goal with |- context [save_and_warn ?x w3] =>
      destruct (save_and_warn x w3) as [u4 w4] eqn:ES end.
    apply save_and_warn_persisted in ES.
    intros [= <- <-]. right. exists carro, carro', w2.
    split; [reflexivity|]. split; [|split; [reflexivity|eapply persisted_trans; eassumption]].
    eapply kept_trans; [|exact EA]. apply kept_calm.
    eapply calm_trans; eapply advance_calm; eassumption.
  - destruct (Print (MsgNotFound id) w) as [u w1] eqn:EP.
    intros [= <- <-]. left. auto.
Qed.

Lemma CarregarJSON_spec c w ok c' w' :
  CarregarJSON c w = (ok, c', w') ->
  w' = w
  /\ (c' = c
      \/ exists data cs,
           files w !! arquivoJSON c = Some (Content data)
           /\ Unmarshal data = Some cs /\ ok = true
           /\ c' = mkCadastro (index_loop (elems cs)) cs (arquivoJSON c)).
Proof.
  unfold CarregarJSON, bind, ret, ReadFile.
  destruct (files w !! arquivoJSON c) as [[|data]|] eqn:EF;
    try (intros [= <- <- <-]; auto).
  destruct (Unmarshal data) as [cs|] eqn:EU; intros [= <- <- <-]; split; auto.
  right. exists data, cs. auto.
Qed.
End OperationSpecs.

(** ** The map follows the listing *)

Lemma latest_nil id : latest id [] = None.
Proof. reflexivity. Qed.

Lemma latest_Some_elem id l r : latest id l = Some r -> r ∈ l /\ ID r = id.
Proof.
  unfold latest. intros Hl. apply last_Some_elem_of in Hl.
  apply list_elem_of_filter in Hl as [? ?]. auto.
Qed.

Lemma latest_removed id id0 l :
  latest id (filter (fun x => ID x <> id0) l)
  = if decide (id = id0) then None else latest id l.
Proof.
  induction l as [|x l IH] using rev_ind.
  - case_decide; reflexivity.
  - rewrite filter_app, filter_cons, filter_nil.
    destruct (decide (ID x <> id0)) as [Hx|Hx].
    + rewrite !latest_app, IH. repeat case_decide; congruence.
    + rewrite app_nil_r, IH, latest_app. apply dec_stable in Hx.
      repeat case_decide; congruence.
Qed.

Lemma latest_updated id id0 carro l :
  ID carro = id0 ->
  latest id ((fun x => if decide (ID x = id0) then carro else x) <$> l)
  = if decide (id = id0) then
      match latest id0 l with
      | Some _ => Some carro
      | None => None
      end
    else latest id l.
Proof.
  intros Hc. induction l as [|x l IH] using rev_ind.
  - case_decide; reflexivity.
  - rewrite fmap_app. simpl. rewrite !latest_app, IH.
    repeat case_decide; subst; congruence.
Qed.

Lemma synced_new path : synced (NewCadastroCarros path).
Proof. intros id. apply lookup_empty. Qed.

Lemma synced_create c novo :
  synced c ->
  synced (mkCadastro (<[ID novo := novo]> (carrosMap c))
            (append_slice (carros c) novo) (arquivoJSON c)).
Proof.
  intros Hs id. simpl. rewrite latest_app. case_decide as Hx.
  - subst id. apply lookup_insert_eq.
  - rewrite lookup_insert_ne by assumption. apply Hs.
Qed.

Lemma synced_delete c id0 :
  synced c ->
  synced (mkCadastro (delete id0 (carrosMap c))
            (remove_loop id0 (elems (carros c))) (arquivoJSON c)).
Proof.
  intros Hs id. simpl. rewrite elems_remove_loop, latest_removed. case_decide as Hx.
  - subst id. apply lookup_delete_eq.
  - rewrite lookup_delete_ne by congruence. apply Hs.
Qed.

Lemma synced_update c id0 carro carro' :
  synced c -> carrosMap c !! id0 = Some carro -> ID carro' = ID carro ->
  synced (mkCadastro (<[id0 := carro']> (carrosMap c))
            (update_loop id0 carro' (elems (carros c))) (arquivoJSON c)).
Proof.
  intros Hs Hc Hid id. simpl.
  pose proof Hc as Hl. rewrite Hs in Hl.
  destruct (latest_Some_elem _ _ _ Hl) as [_ Hid0].
  rewrite elems_update_loop, latest_updated by congruence.
  case_decide as Hx.
  - subst id. rewrite Hl. apply lookup_insert_eq.
  - rewrite lookup_insert_ne by congruence. apply Hs.
Qed.

Lemma synced_load cs path : synced (mkCadastro (index_loop (elems cs)) cs path).
Proof. intros id. apply index_loop_lookup. Qed.

Section Invariant.
Context `{GoLib}.

Lemma step_synced o c w c' w' : step o c w = (c', w') -> synced c -> synced c'.
Proof.
  intros Hstep Hs. destruct o as [|id|id|]; simpl in Hstep.
  - apply AdicionarCarro_cases in Hstep as [[-> _]|(novo & -> & _)]; [assumption|].
    apply synced_create, Hs.
  - apply AtualizarCarro_spec in Hstep
      as [(_ & -> & _)|(carro & carro' & w1 & Hc & (Hid & _) & -> & _)]; [assumption|].
    eapply synced_update; eassumption.
  - apply RemoverCarro_spec in Hstep as [(_ & -> & _)|(_ & -> & _)]; [assumption|].
    apply synced_delete, Hs.
  - unfold bind, ret in Hstep.
    destruct (CarregarJSON c w) as [[ok c1] w1] eqn:EL. simpl in Hstep.
    injection Hstep as <- <-.
    apply CarregarJSON_spec in EL as [_ [->|(data & cs & _ & _ & _ & ->)]]; [assumption|].
    apply synced_load.
Qed.

Lemma steps_synced os c w c' w' : steps os c w = (c', w') -> synced c -> synced c'.
Proof.
  revert c w. induction os as [|o os IH]; intros c w; simpl.
  - intros [= <- <-]. auto.
  - unfold bind. destruct (step o c w) as [c1 w1] eqn:E1. intros Hr Hs.
    eapply IH; [exact Hr|]. eapply step_synced; eassumption.
Qed.
End Invariant.

Lemma latest_is_Some id l : is_Some (latest id l) <-> id ∈ ID <$> l.
Proof.
  unfold latest. rewrite list_elem_of_fmap. split.
  - intros [r Hr]. apply last_Some_elem_of, list_elem_of_filter in Hr as [? ?]. eauto.
  - intros (r & -> & Hr).
    assert (Hin : r ∈ filter (fun x => ID x = ID r) l)
      by (apply list_elem_of_filter; auto).
    destruct (filter (fun x => ID x = ID r) l) as [|y f] eqn:E using rev_ind.
    + inversion Hin.
    + rewrite last_snoc. eauto.
Qed.

Lemma latest_NoDup r l : NoDup (ID <$> l) -> r ∈ l -> latest (ID r) l = Some r.
Proof.
  induction l as [|x l IH] using rev_ind; intros Hnd Hin; [inversion Hin|].
  rewrite fmap_app in Hnd. apply NoDup_app in Hnd as (Hnd & Hdisj & _).
  rewrite latest_app. apply elem_of_app in Hin as [Hin|Hin].
  - case_decide as Hx; [|auto]. exfalso. apply (Hdisj (ID r)).
    + apply list_elem_of_fmap. eauto.
    + simpl. rewrite Hx. apply list_elem_of_here.
  - apply list_elem_of_singleton in Hin as ->. case_decide; congruence.
Qed.

Lemma once_NoDup r (l : list Carro) : NoDup l -> r ∈ l -> once r l.
Proof.
  intros Hnd Hin. apply list_elem_of_split in Hin as (l1 & l2 & ->).
  exists l1, l2. split; [reflexivity|].
  apply NoDup_app in Hnd as (_ & Hdisj & Hnd2). apply NoDup_cons in Hnd2 as [? _].
  split; [|assumption]. intros Hin1. apply (Hdisj r Hin1), list_elem_of_here.
Qed.

Lemma synced_same_records c : synced c -> NoDup (ids c) -> same_records c.
Proof.
  intros Hs Hnd. split.
  - intros id r Hr. rewrite Hs in Hr. apply latest_Some_elem in Hr as [Hin _].
    apply once_NoDup; [|assumption]. eapply NoDup_fmap_1, Hnd.
  - intros r Hin. rewrite Hs. apply latest_NoDup; assumption.
Qed.

(** * Not found *)

(** C6: for an identifier that the registry does not hold, looking up,
    deleting and updating each report that the record was not found and
    leave the map, the listing and the files as they were. *)
Theorem C6_absent_id_is_not_found `{GoLib} (id : string) (c : CadastroCarros) (w : World) :
  carrosMap c !! id = None ->
  let w' := snd (Print (MsgNotFound id) w) in
  BuscarCarro id c w = (tt, w')
  /\ RemoverCarro id c w = (c, w')
  /\ AtualizarCarro id c w = (c, w')
  /\ files w' = files w
  /\ stdout w' = stdout w ++ [MsgNotFound id].
Proof.
  intros Hid. unfold BuscarCarro, RemoverCarro, AtualizarCarro. rewrite Hid.
  unfold bind, ret, Print; simpl. repeat split.
Qed.

Lemma C6_absent_id_witness :
  carrosMap (NewCadastroCarros "carros.json") !! "car_9" = None
  /\ @RemoverCarro whole_lib "car_9" (NewCadastroCarros "carros.json")
       (world_of [] running_clock)
     = (NewCadastroCarros "carros.json",
        snd (Print (MsgNotFound "car_9") (world_of [] running_clock))).
Proof.
  split; [reflexivity|].
  apply (@C6_absent_id_is_not_found whole_lib "car_9" (NewCadastroCarros "carros.json")
           (world_of [] running_clock)).
  reflexivity.
Defined.

(** * Deleting *)

(** C9: deleting an identifier that the registry holds drops from the
    listing every entry that carries it, keeps the other entries in order,
    and takes exactly one entry out of the map. *)
Theorem C9_delete_drops_every_entry `{GoLib} (id : string) (c : CadastroCarros)
    (r : Carro) (w : World) :
  carrosMap c !! id = Some r ->
  let c' := fst (RemoverCarro id c w) in
  elems (carros c') = filter (fun x => ID x <> id) (elems (carros c))
  /\ (id ∉ ids c')
  /\ carrosMap c' = delete id (carrosMap c)
  /\ size (carrosMap c) = S (size (carrosMap c')).
Proof.
  intros Hid c'.
  destruct (RemoverCarro id c w) as [c1 w1] eqn:ER. subst c'. simpl.
  apply RemoverCarro_spec in ER as [(Hn & _)|(_ & -> & _)]; [congruence|]. simpl.
  rewrite elems_remove_loop. split; [reflexivity|]. split; [|split; [reflexivity|]].
  - unfold ids. simpl. rewrite elems_remove_loop.
    intros Hin. apply list_elem_of_fmap in Hin as (x & Hx & Hin).
    apply list_elem_of_filter in Hin as [Hne _]. congruence.
  - rewrite <- (insert_delete_id _ _ _ Hid) at 1.
    apply map_size_insert_None, lookup_delete_eq.
Qed.

Lemma C9_delete_witness :
  carrosMap duplicated !! "car_1" = Some car_a2
  /\ elems (carros (fst (@RemoverCarro whole_lib "car_1" duplicated
                           (world_of [] running_clock))))
     = filter (fun x => ID x <> "car_1") [car_a; car_b; car_a2].
Proof.
  assert (Hid : carrosMap duplicated !! "car_1" = Some car_a2) by (vm_compute; reflexivity).
  split; [exact Hid|].
  exact (proj1 (@C9_delete_drops_every_entry whole_lib "car_1" duplicated car_a2
                  (world_of [] running_clock) Hid)).
Defined.

(** * Registering *)

Lemma SFleb_false_not_zero_or_negative p :
  SFleb p f0 = false -> SFeqb p f0 = false /\ SFltb p f0 = false.
Proof. destruct p as [[]|[]| |[] m e]; cbv; intros; split; congruence. Qed.

(** C7: when the year typed is 0 or the current year plus 2, or the price
    typed is zero or negative, registering fails: the map and the listing
    are as before, no file is written and no record is reported as
    registered. *)
Theorem C7_rejected_create_changes_nothing `{GoLib} (c : CadastroCarros) (w : World) :
  (Atoi (answer 2 w) = Some 0
   \/ Atoi (answer 2 w) = Some (Year (clock w (ticks w)) + 2)
   \/ exists p, ParseFloat (answer 4 w) = Some p
                /\ (SFeqb p f0 = true \/ SFltb p f0 = true)) ->
  let r := AdicionarCarro c w in
  fst r = c
  /\ files (snd r) = files w
  /\ added (stdout (snd r)) = added (stdout w).
Proof.
  intros Hbad r. subst r. destruct (AdicionarCarro c w) as [c' w'] eqn:E. simpl.
  apply AdicionarCarro_cases in E
    as [[-> [n (Hf & _ & _ & _ & Ha)]]
       |(novo & _ & _ & _ & _ & Hyear & Hprice & _ & _ & (_ & _ & Hano & Hpreco & _) & _)].
  - auto.
  - exfalso. destruct Hbad as [H0|[H2|(p & Hp & Hsign)]].
    + rewrite H0 in Hano. injection Hano as Hano. lia.
    + rewrite H2 in Hano. injection Hano as Hano. lia.
    + rewrite Hp in Hpreco. injection Hpreco as ->.
      apply SFleb_false_not_zero_or_negative in Hprice as [? ?].
      destruct Hsign; congruence.
Qed.

Lemma C7_rejected_create_witness :
  Atoi (@answer whole_lib 2
          (world_of ["Toyota"; "Corolla"; "0"; "Prata"; "95000"; "Japão"] running_clock))
  = Some 0
  /\ fst (@AdicionarCarro whole_lib single
            (world_of ["Toyota"; "Corolla"; "0"; "Prata"; "95000"; "Japão"] running_clock))
     = single.
Proof.
  split; [reflexivity|].
  apply (@C7_rejected_create_changes_nothing whole_lib single
           (world_of ["Toyota"; "Corolla"; "0"; "Prata"; "95000"; "Japão"] running_clock)).
  left. reflexivity.
Defined.

(** * The two views *)

(** C1, as the program has it: after any sequence of registrations,
    updates, deletions and loads, the map sends each identifier of the
    listing to the last record that carries it and holds no other
    identifier; where the identifiers of the listing are pairwise
    distinct, the two views hold the same records, each once. *)
Theorem C1_map_follows_listing `{GoLib} (ops : list Op) (path : string) (w : World) :
  let c := fst (steps ops (NewCadastroCarros path) w) in
  synced c
  /\ (forall id, is_Some (carrosMap c !! id) <-> id ∈ ids c)
  /\ (NoDup (ids c) -> same_records c).
Proof.
  intros c. subst c.
  destruct (steps ops (NewCadastroCarros path) w) as [c w'] eqn:E. simpl.
  assert (Hs : synced c) by (eapply steps_synced; [exact E|apply synced_new]).
  split; [exact Hs|]. split.
  - intros id. rewrite Hs. apply latest_is_Some.
  - apply synced_same_records, Hs.
Qed.

(** * Identifiers *)

Lemma byte_of_ascii_of_nat n : (n < 256)%nat -> byte_of (ascii_of_nat n) = Z.of_nat n.
Proof. intros Hn. unfold byte_of. rewrite nat_ascii_embedding by assumption. reflexivity. Qed.

Lemma digit_char n :
  0 <= n ->
  let d := ascii_of_nat (Z.to_nat (48 + n mod 10)) in
  is_digit d = true /\ byte_of d - 48 = n mod 10.
Proof.
  intros Hn d. subst d.
  assert (Hm : 0 <= n mod 10 < 10) by (apply Z.mod_pos_bound; lia).
  unfold is_digit. rewrite byte_of_ascii_of_nat by lia.
  rewrite Z2Nat.id by lia. split; [|lia].
  apply andb_true_intro. split; apply Z.leb_le; lia.
Qed.

(** Reading back the digits written by [pos_digits]. *)
Lemma digits_value_pos_digits fuel n acc :
  0 <= n < 2 ^ Z.of_nat fuel ->
  digits_value 0 (pos_digits fuel n acc) = digits_value n acc.
Proof.
  revert n acc. induction fuel as [|k IH]; intros n acc Hn.
  - simpl in *. replace n with 0 by lia. reflexivity.
  - destruct (digit_char n (proj1 Hn)) as [Hd Hv].
    simpl pos_digits. destruct (n <? 10) eqn:E10.
    + apply Z.ltb_lt in E10. simpl. rewrite Hd, Hv.
      rewrite Z.mod_small by lia. reflexivity.
    + apply Z.ltb_ge in E10. rewrite IH.
      * simpl. rewrite Hd, Hv. f_equal.
        pose proof (Z.div_mod n 10). lia.
      * rewrite Nat2Z.inj_succ, Z.pow_succ_r in Hn by lia.
        split; [apply Z.div_pos; lia|].
        apply Z.div_lt_upper_bound; lia.
Qed.

Lemma digits_value_itoa n : 0 <= n -> digits_value 0 (itoa n) = Some n.
Proof.
  intros Hn. unfold itoa. destruct (n <? 0) eqn:E; [apply Z.ltb_lt in E; lia|].
  rewrite digits_value_pos_digits; [reflexivity|].
  rewrite Nat2Z.inj_succ, Z2Nat.id by apply Z.log2_nonneg.
  destruct (Z.eq_dec n 0) as [->|Hz]; [simpl; lia|].
  split; [lia|]. apply Z.log2_spec. lia.
Qed.

Lemma read_back_itoa n : read_back (itoa n) = Some n.
Proof.
  destruct (Z.lt_ge_cases n 0) as [Hneg|Hpos].
  - unfold itoa. apply Z.ltb_lt in Hneg as E. rewrite E.
    unfold read_back. rewrite Ascii.eqb_refl.
    pose proof (digits_value_itoa (- n)) as Hd. unfold itoa in Hd.
    destruct (- n <? 0) eqn:E2; [apply Z.ltb_lt in E2; lia|].
    rewrite Hd by lia. simpl. f_equal. lia.
  - pose proof (digits_value_itoa n Hpos) as Hd.
    destruct (itoa n) as [|c r]; [exact Hd|].
    unfold read_back. destruct (Ascii.eqb c "-") eqn:Ec; [|exact Hd].
    apply Ascii.eqb_eq in Ec. subst c. discriminate.
Qed.

Lemma itoa_inj a b : itoa a = itoa b -> a = b.
Proof.
  intros Hab. pose proof (read_back_itoa a) as Ha. rewrite Hab, read_back_itoa in Ha.
  congruence.
Qed.

(** * Listing and looking up *)

Lemma printed_app w a b : printed (printed w a) b = printed w (a ++ b).
Proof. unfold printed; simpl. rewrite <- app_assoc. reflexivity. Qed.

Lemma Print_printed m w : Print m w = (tt, printed w [m]).
Proof. reflexivity. Qed.

Lemma print_each (l : list Carro) (k : IO unit) (w : World) :
  fold_left (fun k carro => k ;; Print (MsgCarro carro)) l k w
  = (tt, printed (snd (k w)) (MsgCarro <$> l)).
Proof.
  revert k. induction l as [|x l IH]; intros k; simpl.
  - destruct (k w) as [[] w1]. unfold printed; simpl. rewrite app_nil_r.
    destruct w1; reflexivity.
  - rewrite IH. unfold bind. destruct (k w) as [[] w1]. simpl.
    f_equal. apply (printed_app w1 [MsgCarro x] (MsgCarro <$> l)).
Qed.

(** X1: listing prints the notice for an empty registry, and otherwise the
    header followed by one line per record, in the order of the listing;
    it reads no input, takes no clock reading and writes no file. *)
Theorem listing_prints_in_order `{GoLib} (c : CadastroCarros) (w : World) :
  ListarCarros c w
  = (tt, printed w (match elems (carros c) with
                    | [] => [MsgEmptyList]
                    | l => MsgListHeader :: (MsgCarro <$> l)
                    end)).
Proof.
  unfold ListarCarros. destruct (elems (carros c)) as [|x l]; [reflexivity|].
  unfold bind at 1. rewrite Print_printed.
  rewrite print_each. unfold ret; simpl. rewrite printed_app. reflexivity.
Qed.

(** X2: when a registration is reported, the new record is the last of
    the listing, carries the identifier and the date taken from the clock,
    and looking its identifier up prints exactly that record. *)
Theorem lookup_after_register `{GoLib} (c : CadastroCarros) (w : World) :
  let r := AdicionarCarro c w in
  added (stdout (snd r)) = S (added (stdout w)) ->
  exists novo,
    elems (carros (fst r)) = elems (carros c) ++ [novo]
    /\ carrosMap (fst r) !! ID novo = Some novo
    /\ ID novo = ("car_" +:+ itoa (UnixNano (clock w (S (ticks w)))))%string
    /\ DataCadastro novo = FormatDate (clock w (S (S (ticks w))))
    /\ forall w2, BuscarCarro (ID novo) (fst r) w2
                  = (tt, printed w2 [MsgFoundHeader; MsgCarro novo]).
Proof.
  intros r. subst r. destruct (AdicionarCarro c w) as [c' w'] eqn:E. simpl.
  intros Hadded.
  apply AdicionarCarro_cases in E
    as [[-> [n (_ & _ & _ & _ & Ha)]]
       |(novo & -> & _ & _ & _ & _ & _ & Hid & Hdate & _)]; [lia|].
  exists novo. simpl. split; [reflexivity|].
  split; [apply lookup_insert_eq|]. split; [exact Hid|]. split; [exact Hdate|].
  intros w2. unfold BuscarCarro. simpl. rewrite lookup_insert_eq.
  unfold bind, Print, printed. simpl. rewrite <- app_assoc. reflexivity.
Qed.

Lemma lookup_after_register_witness :
  exists novo,
    elems (carros (fst (@AdicionarCarro whole_lib (NewCadastroCarros "carros.json")
                          (world_of corolla running_clock))))
    = [novo]
    /\ ID novo = "car_1714557600000000001".
Proof.
  destruct (@lookup_after_register whole_lib (NewCadastroCarros "carros.json")
              (world_of corolla running_clock) eq_refl)
    as (novo & Hl & _ & Hid & _).
  exists novo. split; [exact Hl|exact Hid].
Defined.





(** * Loading and start-up *)


(** X5: when the file [carros.json] is missing, unreadable or cannot be
    decoded, [main] runs the console loop on the empty registry; it prints
    the load warning first unless the file is missing, and does not stop. *)
Theorem main_starts_empty_without_usable_file `{GoLib} (fuel : nat) (w : World) :
  (files w !! "carros.json" = None
   \/ files w !! "carros.json" = Some Unreadable
   \/ exists data, files w !! "carros.json" = Some (Content data)
                   /\ Unmarshal data = None) ->
  main fuel w
  = loop fuel (NewCadastroCarros "carros.json")
      (printed w (match files w !! "carros.json" with
                  | None => []
                  | Some _ => [MsgLoadWarning]
                  end ++ [MsgWelcome; MsgHelp])).
Proof.
  intros Hfile. unfold main, CarregarJSON, bind, ret, ReadFile. simpl.
  destruct Hfile as [E|[E|(data & E & EU)]]; rewrite E; simpl; try rewrite EU; simpl;
    f_equal; unfold printed; simpl; rewrite <- ?app_assoc; reflexivity.
Qed.

Lemma main_starts_empty_witness :
  files (mkWorld ["exit"] false EmptyString false running_clock 0
           {["carros.json" := Content "not json"]} ∅ []) !! "carros.json"
  = Some (Content "not json")
  /\ carrosMap (fst (@main whole_lib 5
                       (mkWorld ["exit"] false EmptyString false running_clock 0
                          {["carros.json" := Content "not json"]} ∅ []))) = ∅.
Proof.
  split; [vm_compute; reflexivity|].
  rewrite (@main_starts_empty_without_usable_file whole_lib 5
             (mkWorld ["exit"] false EmptyString false running_clock 0
                {["carros.json" := Content "not json"]} ∅ [])).
  - vm_compute. reflexivity.
  - right. right. exists "not json". split; vm_compute; reflexivity.
Defined.

(** * Saving *)

Section Saving.
Context `{GoLib}.

Lemma encode_elems_Some l :
  is_Some (encode_elems l) <-> Forall (fun c => is_finite (Preco c) = true) l.
Proof.
  induction l as [|x l IH]; simpl.
  - split; [constructor|eauto].
  - rewrite Forall_cons. unfold encode_carro.
    destruct (is_finite (Preco x)) eqn:Ef.
    + destruct (encode_elems l) eqn:El.
      * split; [intros _; split; [reflexivity|apply IH; eauto]|eauto].
      * split; [intros [? [=]]|].
        intros [_ Hl]. apply IH in Hl. destruct Hl as [? [=]].
    + simpl. split; [intros [? [=]]|intros [[=] _]].
Qed.

Lemma MarshalIndent_Some s : is_Some (MarshalIndent s) <-> encodable s.
Proof.
  unfold encodable. destruct s as [[|x l]|].
  - simpl. split; [constructor|eauto].
  - simpl elems. rewrite <- encode_elems_Some. unfold MarshalIndent.
    destruct (encode_elems (x :: l)); split; intros [? Hq]; eauto; inversion Hq.
  - simpl. split; [constructor|eauto].
Qed.
End Saving.

(** X6: saving succeeds exactly when the path can be written and every
    price of the listing is a finite number; it then replaces the content
    of that one file by the indented JSON text of the listing and touches
    nothing else; when it fails, the world is as before. *)
Theorem save_writes_whole_file_or_nothing `{GoLib} (c : CadastroCarros) (w : World) :
  let r := SalvarJSON c w in
  (fst r = true <-> (arquivoJSON c ∉ denied w) /\ encodable (carros c))
  /\ (fst r = true ->
      exists text, MarshalIndent (carros c) = Some text
                   /\ snd r = written w (arquivoJSON c) text)
  /\ (fst r = false -> snd r = w).
Proof.
  unfold SalvarJSON, WriteFile, ret. simpl.
  pose proof (MarshalIndent_Some (carros c)) as Henc.
  destruct (MarshalIndent (carros c)) as [text|] eqn:EM.
  - case_decide; simpl; split_and!; try done.
    + split; [done|]. intros [? _]. done.
    + split; [intros _; split; [done|apply Henc; eauto]|done].
    + intros _. exists text. split; reflexivity.
  - simpl. split_and!; try done.
    split; [done|]. intros [_ He]. apply Henc in He as [? [=]].
Qed.

Lemma remove_loop_all id (l : list Carro) :
  (forall x, x ∈ l -> ID x = id) -> remove_loop id l = None.
Proof.
  intros Hall. unfold remove_loop. rewrite remove_loop_from.
  assert (Hf : filter (fun x => ID x <> id) l = []).
  { induction l as [|x l IH]; [reflexivity|].
    rewrite filter_cons. destruct (decide (ID x <> id)) as [Hne|_].
    - exfalso. apply Hne, Hall. left.
    - apply IH. intros y Hy. apply Hall. right. exact Hy. }
  rewrite Hf. reflexivity.
Qed.

Section Mirror.
Context `{GoLib}.

Lemma save_and_warn_eq c w :
  save_and_warn c w
  = (tt, match MarshalIndent (carros c) with
         | Some text =>
             if decide (arquivoJSON c ∈ denied w) then printed w [MsgSaveWarning]
             else written w (arquivoJSON c) text
         | None => printed w [MsgSaveWarning]
         end).
Proof.
  unfold save_and_warn, SalvarJSON, WriteFile, bind, ret.
  destruct (MarshalIndent (carros c)); [case_decide|]; reflexivity.
Qed.

Lemma RemoverCarro_found id c r w :
  carrosMap c !! id = Some r ->
  RemoverCarro id c w
  = let c' := mkCadastro (delete id (carrosMap c))
                (remove_loop id (elems (carros c))) (arquivoJSON c) in
    (c', snd (save_and_warn c' (printed w [MsgRemoved id]))).
Proof.
  intros Hid. unfold RemoverCarro, bind, ret. rewrite Hid. unfold printed. simpl.
  destruct (save_and_warn _ _). reflexivity.
Qed.
End Mirror.

(** X7: deleting an identifier carried by every record of the listing
    leaves the nil slice, and the file then holds the text [null]; saving
    a registry as [NewCadastroCarros] builds it writes the text of the
    empty array.  Both for a path that can be written. *)
Theorem delete_last_writes_null `{GoLib} (id : string) (c : CadastroCarros) (r : Carro)
    (w : World) :
  carrosMap c !! id = Some r ->
  (forall x, x ∈ elems (carros c) -> ID x = id) ->
  arquivoJSON c ∉ denied w ->
  let d := RemoverCarro id c w in
  carros (fst d) = None
  /\ files (snd d) !! arquivoJSON c = Some (Content "null")
  /\ files (snd (SalvarJSON (NewCadastroCarros (arquivoJSON c)) w)) !! arquivoJSON c
     = Some (Content "[]").
Proof.
  intros Hid Hall Hw d. subst d. rewrite (RemoverCarro_found _ _ _ _ Hid). simpl.
  rewrite (remove_loop_all _ _ Hall). split; [reflexivity|].
  rewrite save_and_warn_eq. simpl. unfold SalvarJSON, WriteFile. simpl.
  rewrite !decide_False by exact Hw. simpl.
  split; apply lookup_insert_eq.
Qed.

Lemma delete_last_witness :
  carrosMap single !! "car_1" = Some car_a
  /\ files (snd (@RemoverCarro whole_lib "car_1" single (world_of [] running_clock)))
       !! "carros.json" = Some (Content "null").
Proof.
  assert (Hid : carrosMap single !! "car_1" = Some car_a) by (vm_compute; reflexivity).
  split; [exact Hid|].
  refine (proj1 (proj2 (@delete_last_writes_null whole_lib "car_1" single car_a
                          (world_of [] running_clock) Hid _ _))).
  - intros x Hx. apply list_elem_of_singleton in Hx. subst x. reflexivity.
  - vm_compute. inversion 1.
Defined.

(** * Updating *)

(** X8: updating an identifier that the registry holds puts one record
    with the same identifier and registration date in the map and at every
    position of the listing that carried the identifier; the other
    positions, the length of the listing and the other keys of the map are
    as before. *)
Theorem update_replaces_in_place `{GoLib} (id : string) (c : CadastroCarros)
    (carro : Carro) (w : World) :
  carrosMap c !! id = Some carro ->
  let c' := fst (AtualizarCarro id c w) in
  exists carro',
    ID carro' = ID carro
    /\ DataCadastro carro' = DataCadastro carro
    /\ carrosMap c' = <[id := carro']> (carrosMap c)
    /\ elems (carros c')
       = (fun x => if decide (ID x = id) then carro' else x) <$> elems (carros c)
    /\ length (elems (carros c')) = length (elems (carros c))
    /\ (forall j, j <> id -> carrosMap c' !! j = carrosMap c !! j).
Proof.
  intros Hid c'. subst c'.
  destruct (AtualizarCarro id c w) as [c1 w1] eqn:EA. simpl.
  apply AtualizarCarro_spec in EA
    as [(Hn & _)|(carro0 & carro' & w2 & Hc & (Hi & Hd & _) & -> & _)]; [congruence|].
  rewrite Hid in Hc. injection Hc as <-.
  exists carro'. simpl. rewrite elems_update_loop, length_fmap.
  split_and!; try done.
  intros j Hj. apply lookup_insert_ne. congruence.
Qed.

Lemma update_replaces_in_place_witness :
  carrosMap duplicated !! "car_1" = Some car_a2
  /\ length (elems (carros (fst (@AtualizarCarro whole_lib "car_1" duplicated
                                   (world_of ["Audi"] running_clock)))))
     = length (elems (carros duplicated)).
Proof.
  assert (Hid : carrosMap duplicated !! "car_1" = Some car_a2) by (vm_compute; reflexivity).
  split; [exact Hid|].
  destruct (@update_replaces_in_place whole_lib "car_1" duplicated car_a2
              (world_of ["Audi"] running_clock) Hid)
    as (carro' & _ & _ & _ & _ & Hlen & _).
  exact Hlen.
Defined.

(** * Required answers *)

(** X9: registering fails, and leaves the registry, the files and the count
    of registered records as they were, when the make, the model or the
    country typed is blank, when the year typed is not a number, or when
    the price typed is not a number. *)
Theorem blank_or_unparsable_answer_rejected `{GoLib} (c : CadastroCarros) (w : World) :
  (answer 0 w = EmptyString \/ answer 1 w = EmptyString \/ answer 5 w = EmptyString
   \/ Atoi (answer 2 w) = None \/ ParseFloat (answer 4 w) = None) ->
  let r := AdicionarCarro c w in
  fst r = c
  /\ files (snd r) = files w
  /\ added (stdout (snd r)) = added (stdout w).
Proof.
  intros Hbad r. subst r. destruct (AdicionarCarro c w) as [c' w'] eqn:E. simpl.
  apply AdicionarCarro_cases in E
    as [[-> [n (Hf & _ & _ & _ & Ha)]]
       |(novo & _ & Hm & Hmo & Hp & _ & _ & _ & _
          & (Em & Emo & Hano & Hpreco & Ep) & _)].
  - auto.
  - exfalso. destruct Hbad as [B|[B|[B|[B|B]]]]; congruence.
Qed.

Lemma blank_answer_rejected_witness :
  @answer whole_lib 1 (world_of ["Toyota"; "   "; "2020"] running_clock) = EmptyString
  /\ fst (@AdicionarCarro whole_lib single
            (world_of ["Toyota"; "   "; "2020"] running_clock)) = single.
Proof.
  split; [reflexivity|].
  apply (@blank_or_unparsable_answer_rejected whole_lib single
           (world_of ["Toyota"; "   "; "2020"] running_clock)).
  right. left. reflexivity.
Defined.

(** * Invariants of sequences without a load *)

Section Sequences.
Context `{GoLib}.

Lemma step_later o c w c' w' : step o c w = (c', w') -> later w w'.
Proof.
  intros Hstep. destruct o as [|id|id|]; simpl in Hstep.
  - apply AdicionarCarro_cases in Hstep
      as [[_ Hc]|(novo & _ & _ & _ & _ & _ & _ & _ & _ & _ & Hck & _ & Ht & _)].
    + apply calm_later, Hc.
    + split; [exact Hck|lia].
  - apply AtualizarCarro_spec in Hstep
      as [(_ & _ & ->)|(carro & carro' & w1 & _ & (_ & _ & Hc & _) & _ & Hp)].
    + split; [reflexivity|simpl; lia].
    + eapply later_trans; [apply calm_later, Hc|apply persisted_later, Hp].
  - apply RemoverCarro_spec in Hstep as [(_ & _ & ->)|(_ & _ & Hp)].
    + split; [reflexivity|simpl; lia].
    + apply persisted_later, Hp.
  - unfold bind, ret in Hstep.
    destruct (CarregarJSON c w) as [[ok c1] w1] eqn:EL. simpl in Hstep.
    injection Hstep as _ <-. apply CarregarJSON_spec in EL as [-> _]. apply later_refl.
Qed.

Lemma step_all_valid o c w c' w' :
  o <> OpLoad -> step o c w = (c', w') -> all_valid w c -> all_valid w' c'.
Proof.
  intros Ho Hstep [Hl Hm]. pose proof (step_later _ _ _ _ _ Hstep) as Hlater.
  assert (Hold : all_valid w' c).
  { split; [intros r Hr|intros id r Hr]; eapply valid_later; eauto. }
  destruct o as [|id|id|]; simpl in Hstep; [| | |congruence].
  - apply AdicionarCarro_cases in Hstep
      as [[-> _]|(novo & -> & Hma & Hmo & Hp & Hy & Hpr & _ & _ & _ & Hck & _ & Ht & _)];
      [exact Hold|].
    assert (Hnovo : valid w' novo).
    { repeat split; try assumption; try lia.
      exists (ticks w). rewrite Hck, Ht. split; lia. }
    destruct Hold as [Hl' Hm']. split; simpl.
    + intros r Hr. apply elem_of_app in Hr as [Hr|Hr]; [auto|].
      apply list_elem_of_singleton in Hr. subst r. exact Hnovo.
    + intros id r Hr. apply lookup_insert_Some in Hr as [[_ <-]|[_ Hr]]; eauto.
  - apply AtualizarCarro_spec in Hstep
      as [(_ & -> & _)|(carro & carro' & w1 & Hc & (_ & _ & _ & Hv) & -> & Hp)];
      [exact Hold|].
    assert (Hnew : valid w' carro').
    { eapply valid_later; [apply persisted_later, Hp|]. apply Hv. eapply Hm, Hc. }
    destruct Hold as [Hl' Hm']. split; simpl.
    + intros r Hr. rewrite elems_update_loop in Hr.
      apply list_elem_of_fmap in Hr as (x & -> & Hx). case_decide; auto.
    + intros j r Hr. apply lookup_insert_Some in Hr as [[_ <-]|[_ Hr]]; eauto.
  - apply RemoverCarro_spec in Hstep as [(_ & -> & _)|(_ & -> & _)]; [exact Hold|].
    destruct Hold as [Hl' Hm']. split; simpl.
    + intros r Hr. rewrite elems_remove_loop in Hr.
      apply list_elem_of_filter in Hr as [_ Hr]. auto.
    + intros j r Hr. apply lookup_delete_Some in Hr as [_ Hr]. eauto.
Qed.

Lemma steps_all_valid os c w c' w' :
  Forall (fun o => o <> OpLoad) os ->
  steps os c w = (c', w') -> all_valid w c -> all_valid w' c'.
Proof.
  intros Hos. revert c w. induction Hos as [|o os Ho _ IH]; intros c w; simpl.
  - intros [= <- <-]. auto.
  - unfold bind. destruct (step o c w) as [c1 w1] eqn:E1. intros Hr Hv.
    eapply IH; [exact Hr|]. eapply step_all_valid; eassumption.
Qed.
End Sequences.

(** X10: after any sequence of registrations, updates and deletions on
    the empty registry, every record of the listing and of the map has a
    make, a model and a country that are not empty, a positive year that
    was at most one more than the year read from the clock when it was
    accepted, and a price that is not zero or negative. *)
Theorem records_stay_valid `{GoLib} (ops : list Op) (path : string) (w : World) :
  Forall (fun o => o <> OpLoad) ops ->
  let r := steps ops (NewCadastroCarros path) w in
  all_valid (snd r) (fst r).
Proof.
  intros Hops r. subst r.
  destruct (steps ops (NewCadastroCarros path) w) as [c' w'] eqn:E. simpl.
  eapply steps_all_valid; [exact Hops|exact E|].
  split; simpl; [intros r Hr; inversion Hr|intros id r Hr].
  rewrite lookup_empty in Hr. discriminate.
Qed.

Lemma records_stay_valid_witness :
  Forall (fun o => o <> OpLoad) [OpCreate; OpUpdate "car_1714557600000000001"]
  /\ all_valid
       (snd (@steps whole_lib [OpCreate; OpUpdate "car_1714557600000000001"]
               (NewCadastroCarros "carros.json")
               (world_of (corolla ++ [""; ""; "2030"; ""; "-5"; ""]) running_clock)))
       (fst (@steps whole_lib [OpCreate; OpUpdate "car_1714557600000000001"]
               (NewCadastroCarros "carros.json")
               (world_of (corolla ++ [""; ""; "2030"; ""; "-5"; ""]) running_clock))).
Proof.
  assert (Hops : Forall (fun o => o <> OpLoad)
                   [OpCreate; OpUpdate "car_1714557600000000001"])
    by (repeat constructor; discriminate).
  split; [exact Hops|].
  exact (@records_stay_valid whole_lib _ "carros.json"
           (world_of (corolla ++ [""; ""; "2030"; ""; "-5"; ""]) running_clock) Hops).
Defined.

(** * Identifiers stay distinct *)

Lemma minted_later w w' id : later w w' -> minted w id -> minted w' id.
Proof.
  intros [Hc Ht] (k & Hk & ->). exists k. rewrite Hc. split; [lia|reflexivity].
Qed.

Lemma ids_update_loop id carro' (l : list Carro) :
  ID carro' = id ->
  ID <$> ((fun x => if decide (ID x = id) then carro' else x) <$> l) = ID <$> l.
Proof.
  intros Hid. rewrite <- list_fmap_compose. apply list_fmap_ext.
  intros i x _. simpl. case_decide; congruence.
Qed.

Lemma ids_remove_sublist id (l : list Carro) :
  ID <$> filter (fun x => ID x <> id) l `sublist_of` ID <$> l.
Proof. apply fmap_sublist, sublist_filter. Qed.

Section Minting.
Context `{GoLib}.

(** What a sequence without a load keeps: the map follows the listing, the
    identifiers of the listing are pairwise distinct and each was made from
    a reading of the clock. *)
Lemma step_minted o c w c' w' :
  o <> OpLoad -> distinct_nanos w -> step o c w = (c', w') ->
  synced c /\ NoDup (ids c) /\ (forall id, id ∈ ids c -> minted w id) ->
  synced c' /\ NoDup (ids c') /\ (forall id, id ∈ ids c' -> minted w' id).
Proof.
  intros Ho Hclk Hstep (Hs & Hnd & Hmint).
  pose proof (step_later _ _ _ _ _ Hstep) as Hlater.
  pose proof (step_synced _ _ _ _ _ Hstep Hs) as Hs'.
  split; [exact Hs'|].
  assert (Hold : forall id, id ∈ ids c -> minted w' id)
    by (intros id Hid; eapply minted_later; eauto).
  destruct o as [|id|id|]; simpl in Hstep; [| | |congruence].
  - apply AdicionarCarro_cases in Hstep
      as [[-> _]|(novo & -> & _ & _ & _ & _ & _ & Hid & _ & _ & Hck & _ & Ht & _)];
      [auto|].
    unfold ids in *. simpl. rewrite fmap_app. simpl. split.
    + apply NoDup_app. split; [exact Hnd|]. split; [|apply NoDup_singleton].
      intros id Hin Hnew. apply list_elem_of_singleton in Hnew. subst id.
      destruct (Hmint _ Hin) as (k & Hk & Hk').
      rewrite Hid in Hk'. simpl in Hk'. injection Hk' as Hk'.
      apply itoa_inj, Hclk in Hk'. lia.
    + intros id Hin. apply elem_of_app in Hin as [Hin|Hin]; [auto|].
      apply list_elem_of_singleton in Hin. subst id.
      exists (S (ticks w)). rewrite Hck, Ht. split; [lia|exact Hid].
  - apply AtualizarCarro_spec in Hstep
      as [(_ & -> & _)|(carro & carro' & w1 & Hc & (Hi & _) & -> & _)]; [auto|].
    assert (Hcid : ID carro' = id).
    { rewrite Hi. rewrite Hs in Hc. apply latest_Some_elem in Hc as [_ ?]. assumption. }
    unfold ids in *. simpl. rewrite elems_update_loop, ids_update_loop by exact Hcid.
    auto.
  - apply RemoverCarro_spec in Hstep as [(_ & -> & _)|(_ & -> & _)]; [auto|].
    unfold ids in *. simpl. rewrite elems_remove_loop. split.
    + eapply sublist_NoDup; [exact Hnd|apply ids_remove_sublist].
    + intros j Hj. apply Hold.
      eapply sublist_subseteq; [apply ids_remove_sublist|exact Hj].
Qed.

Lemma steps_minted os c w c' w' :
  Forall (fun o => o <> OpLoad) os -> distinct_nanos w ->
  steps os c w = (c', w') ->
  synced c /\ NoDup (ids c) /\ (forall id, id ∈ ids c -> minted w id) ->
  synced c' /\ NoDup (ids c') /\ (forall id, id ∈ ids c' -> minted w' id).
Proof.
  intros Hos. revert c w. induction Hos as [|o os Ho _ IH]; intros c w Hclk; simpl.
  - intros [= <- <-]. auto.
  - unfold bind. destruct (step o c w) as [c1 w1] eqn:E1. intros Hr Hinv.
    assert (Hclk1 : distinct_nanos w1).
    { destruct (step_later _ _ _ _ _ E1) as [Hc _]. unfold distinct_nanos.
      rewrite Hc. exact Hclk. }
    eapply IH; [exact Hclk1|exact Hr|].
    exact (step_minted o c w c1 w1 Ho Hclk E1 Hinv).
Qed.
End Minting.

(** X11: when no two readings of the clock give the same nanosecond, after
    any sequence of registrations, updates and deletions on the empty
    registry the identifiers of the listing are pairwise distinct, and the
    map and the listing hold the same records, each once. *)
Theorem distinct_nanos_give_distinct_ids `{GoLib} (ops : list Op) (path : string)
    (w : World) :
  Forall (fun o => o <> OpLoad) ops -> distinct_nanos w ->
  let c := fst (steps ops (NewCadastroCarros path) w) in
  NoDup (ids c) /\ same_records c.
Proof.
  intros Hops Hclk c. subst c.
  destruct (steps ops (NewCadastroCarros path) w) as [c' w'] eqn:E. simpl.
  destruct (steps_minted _ _ _ _ _ Hops Hclk E) as (Hs & Hnd & _).
  - split; [apply synced_new|]. split; [constructor|]. intros id Hid. inversion Hid.
  - split; [exact Hnd|]. apply synced_same_records; assumption.
Qed.

Lemma distinct_nanos_running : distinct_nanos (world_of (corolla ++ civic) running_clock).
Proof. intros i j Hij. simpl in Hij. lia. Qed.

Lemma distinct_nanos_witness :
  Forall (fun o => o <> OpLoad) [OpCreate; OpCreate]
  /\ NoDup (ids (fst (@steps whole_lib [OpCreate; OpCreate]
                        (NewCadastroCarros "carros.json")
                        (world_of (corolla ++ civic) running_clock)))).
Proof.
  assert (Hops : Forall (fun o => o <> OpLoad) [OpCreate; OpCreate])
    by (repeat constructor; discriminate).
  split; [exact Hops|].
  exact (proj1 (@distinct_nanos_give_distinct_ids whole_lib _ "carros.json"
                  (world_of (corolla ++ civic) running_clock) Hops
                  distinct_nanos_running)).
Defined.

(** X12: the identifier is not checked against the registry.  When two
    registrations in a row are reported and their identifiers were made
    from the same nanosecond, the listing holds both records under one
    identifier and the map holds only the second. *)
Theorem same_nanosecond_shares_identifier `{GoLib} (c : CadastroCarros) (w : World) :
  let r1 := AdicionarCarro c w in
  let r2 := AdicionarCarro (fst r1) (snd r1) in
  added (stdout (snd r1)) = S (added (stdout w)) ->
  added (stdout (snd r2)) = S (added (stdout (snd r1))) ->
  UnixNano (clock w (S (ticks w))) = UnixNano (clock w (S (ticks (snd r1)))) ->
  exists n1 n2,
    elems (carros (fst r2)) = elems (carros c) ++ [n1; n2]
    /\ ID n1 = ID n2
    /\ carrosMap (fst r2) !! ID n1 = Some n2.
Proof.
  intros r1 r2. subst r1 r2.
  destruct (AdicionarCarro c w) as [c1 w1] eqn:E1. simpl.
  destruct (AdicionarCarro c1 w1) as [c2 w2] eqn:E2. simpl.
  intros Ha1 Ha2 Hnano.
  apply AdicionarCarro_cases in E1
    as [[_ [n (_ & _ & _ & _ & Ha)]]
       |(n1 & -> & _ & _ & _ & _ & _ & Hid1 & _ & _ & Hck & _)]; [lia|].
  apply AdicionarCarro_cases in E2
    as [[_ [n (_ & _ & _ & _ & Ha)]]
       |(n2 & -> & _ & _ & _ & _ & _ & Hid2 & _)]; [lia|].
  exists n1, n2. simpl. rewrite <- app_assoc. split; [reflexivity|].
  assert (Hsame : ID n1 = ID n2) by (rewrite Hid1, Hid2, Hck, Hnano; reflexivity).
  split; [exact Hsame|]. rewrite Hsame. apply lookup_insert_eq.
Qed.

Lemma same_nanosecond_witness :
  exists n1 n2,
    elems (carros (fst (@AdicionarCarro whole_lib
                          (fst (@AdicionarCarro whole_lib (NewCadastroCarros "carros.json")
                                  (world_of (corolla ++ civic) frozen_clock)))
                          (snd (@AdicionarCarro whole_lib (NewCadastroCarros "carros.json")
                                  (world_of (corolla ++ civic) frozen_clock))))))
    = [n1; n2]
    /\ ID n1 = ID n2.
Proof.
  destruct (@same_nanosecond_shares_identifier whole_lib (NewCadastroCarros "carros.json")
              (world_of (corolla ++ civic) frozen_clock) eq_refl eq_refl eq_refl)
    as (n1 & n2 & Hl & Hid & _).
  exists n1, n2. split; [exact Hl|exact Hid].
Defined.

(** * The file follows the registry *)

Section Mirroring.
Context `{GoLib}.

(** Where the save of a registration starts from. *)
Lemma AdicionarCarro_saved c w c' w' :
  AdicionarCarro c w = (c', w') ->
  (c' = c /\ calm w w')
  \/ exists novo w9,
      c' = mkCadastro (<[ID novo := novo]> (carrosMap c))
             (append_slice (carros c) novo) (arquivoJSON c)
      /\ calm w w9
      /\ w' = snd (save_and_warn c'
                     (printed w9 [MsgAdded (Marca novo) (Modelo novo) (ID novo)])).
Proof.
  unfold AdicionarCarro, bind, ret.
  destruct (Print MsgAddHeader w) as [u w0] eqn:E0.
  apply Print_took in E0 as Hacc; [|reflexivity]. clear E0.
  read_next marca w1 Hmarca. destruct marca as [[|a0 s0]|]; try fail_print.
  read_next modelo w2 Hmodelo. destruct modelo as [[|a1 s1]|]; try fail_print.
  read_next anoR w3 HanoS. destruct anoR as [anoStr|]; try fail_print.
  destruct (year_rejected (Atoi anoStr) w3) as [bad w4] eqn:EY.
  apply year_rejected_spec in EY as [[-> [k Hk]]|(-> & Hk & ano & Hano & Hrange)].
  { destruct (Now w4) as [t w5] eqn:EN. apply Now_took in EN as [_ EN].
    pose proof (took_trans _ _ _ _ _ _ _ (took_trans _ _ _ _ _ _ _ Hacc Hk) EN) as Hacc'.
    clear Hacc. fail_print. }
  pose proof (took_trans _ _ _ _ _ _ _ Hacc Hk) as Hacc'. clear Hacc Hk.
  rename Hacc' into Hacc. simpl in Hacc.
  rewrite Hano. simpl default.
  read_next cor w5 Hcor. read_next precoR w6 HprecoS.
  destruct precoR as [precoStr|]; try fail_print.
  unfold price_rejected.
  destruct (ParseFloat precoStr) as [preco|] eqn:EP; try fail_print.
  destruct (SFleb preco f0) eqn:Eleb; try fail_print.
  simpl default.
  read_next pais w7 Hpais. destruct pais as [[|a2 s2]|]; try fail_print.
  cbv beta iota. destruct (Now w7) as [t1 w8] eqn:EN1. apply Now_took in EN1 as [-> EN1].
  destruct (Now w8) as [t2 w9] eqn:EN2. apply Now_took in EN2 as [-> EN2].
  pose proof (took_trans _ _ _ _ _ _ _ (took_trans _ _ _ _ _ _ _ Hacc EN1) EN2) as Hall.
  rewrite Print_printed. cbv beta iota.
  match goal with |- context [save_and_warn ?x ?y] =>
    destruct (save_and_warn x y) as [u2 w11] eqn:ES end.
  intros [= <- <-]. right.
  eexists (mkCarro _ _ _ _ _ _ _ _), w9. split; [reflexivity|].
  split; [eapply took_calm, Hall|]. exact (eq_sym (f_equal snd ES)).
Qed.

Lemma AtualizarCarro_found id c carro w :
  carrosMap c !! id = Some carro ->
  exists carro' w2,
    kept w carro w2 carro'
    /\ AtualizarCarro id c w
       = let c' := mkCadastro (<[id := carro']> (carrosMap c))
                     (update_loop id carro' (elems (carros c))) (arquivoJSON c) in
         (c', snd (save_and_warn c' (printed w2 [MsgUpdated id]))).
Proof.
  intros Hid. unfold AtualizarCarro, bind, ret. rewrite Hid.
  rewrite !Print_printed. cbv beta iota. rewrite printed_app.
  destruct (ask_fields carro (printed w _)) as [carro' w2] eqn:EA.
  exists carro', w2. split.
  - apply ask_fields_kept in EA. eapply kept_trans; [|exact EA].
    apply kept_calm. exists 0%nat. unfold advance, printed, added; simpl.
    rewrite List.filter_app, length_app. simpl. repeat split; auto; lia.
  - rewrite Print_printed. cbv beta iota zeta.
    destruct (save_and_warn _ _). reflexivity.
Qed.

Lemma calm_files w w' : calm w w' -> files w' = files w /\ denied w' = denied w.
Proof. intros [n (Hf & _ & Hd & _)]. auto. Qed.

(** After a save that starts where the files and the writable paths are
    those of [w]. *)
Lemma saved_files c' w w9 out :
  files w9 = files w -> denied w9 = denied w ->
  arquivoJSON c' ∉ denied w -> encodable (carros c') ->
  exists text,
    MarshalIndent (carros c') = Some text
    /\ files (snd (save_and_warn c' (printed w9 out)))
       = <[arquivoJSON c' := Content text]> (files w).
Proof.
  intros Hf Hd Hw He. apply MarshalIndent_Some in He as [text Ht].
  exists text. split; [exact Ht|]. rewrite save_and_warn_eq, Ht. simpl.
  rewrite Hd. rewrite decide_False by exact Hw. simpl. rewrite Hf. reflexivity.
Qed.
End Mirroring.

(** X13: whenever a registration, an update or a deletion changes the
    registry, and the path can be written and every price of the new
    listing is finite, the file then holds exactly the indented JSON text
    of the new listing and no other file is touched. *)
Theorem file_follows_registry `{GoLib} (o : Op) (c : CadastroCarros) (w : World) :
  o <> OpLoad ->
  let r := step o c w in
  fst r <> c ->
  arquivoJSON c ∉ denied w ->
  encodable (carros (fst r)) ->
  exists text,
    MarshalIndent (carros (fst r)) = Some text
    /\ files (snd r) = <[arquivoJSON c := Content text]> (files w).
Proof.
  intros Ho r. subst r. destruct o as [|id|id|]; simpl; [| | |congruence].
  - destruct (AdicionarCarro c w) as [c' w'] eqn:E. simpl. intros Hne Hw He.
    apply AdicionarCarro_saved in E as [[-> _]|(novo & w9 & -> & Hc & ->)]; [congruence|].
    destruct (calm_files _ _ Hc) as [Hf Hd].
    match goal with |- context [save_and_warn ?x _] =>
      exact (saved_files x w w9 _ Hf Hd Hw He) end.
  - destruct (carrosMap c !! id) as [carro|] eqn:Hid.
    + destruct (AtualizarCarro_found id c carro w Hid) as (carro' & w2 & Hk & ->).
      simpl. intros _ Hw He. destruct Hk as (_ & _ & Hc & _).
      destruct (calm_files _ _ Hc) as [Hf Hd].
      match goal with |- context [save_and_warn ?x _] =>
        exact (saved_files x w w2 _ Hf Hd Hw He) end.
    + unfold AtualizarCarro. rewrite Hid. simpl. congruence.
  - destruct (carrosMap c !! id) as [carro|] eqn:Hid.
    + rewrite (RemoverCarro_found id c carro w Hid). simpl. intros _ Hw He.
      match goal with |- context [save_and_warn ?x _] =>
        exact (saved_files x w w _ eq_refl eq_refl Hw He) end.
    + unfold RemoverCarro. rewrite Hid. simpl. congruence.
Qed.

Lemma file_follows_registry_witness :
  OpCreate <> OpLoad
  /\ exists text,
       files (snd (@step whole_lib OpCreate (NewCadastroCarros "carros.json")
                     (world_of corolla running_clock)))
       = <["carros.json" := Content text]> ∅.
Proof.
  split; [discriminate|].
  destruct (@file_follows_registry whole_lib OpCreate (NewCadastroCarros "carros.json")
              (world_of corolla running_clock)) as (text & _ & Hf).
  - discriminate.
  - vm_compute. discriminate.
  - vm_compute. inversion 1.
  - vm_compute. repeat constructor.
  - exists text. exact Hf.
Defined.

(** * Registering with valid answers *)

Ltac proj :=
  cbv beta iota;
  cbn [stdin stdin_broken token scan_err clock ticks files denied stdout fst snd default].

(** X14: when the input holds six more lines and, trimmed, the make, the
    model and the country are not empty, the year is a number between 1 and
    the clock's year plus one, and the price is a number for which
    [price <= 0] is false, registering appends the record made of exactly
    these answers (the colour as typed, even empty), with the identifier
    and the date taken from the next two readings of the clock, and reads
    exactly the six lines. *)
Theorem valid_answers_are_registered `{GoLib} (c : CadastroCarros) (w : World)
    (l1 l2 l3 l4 l5 l6 : string) (rest : list string) (ano : Z) (preco : float64) :
  scan_err w = false ->
  stdin w = l1 :: l2 :: l3 :: l4 :: l5 :: l6 :: rest ->
  TrimSpace l1 <> EmptyString -> TrimSpace l2 <> EmptyString ->
  Atoi (TrimSpace l3) = Some ano -> 0 < ano <= Year (clock w (ticks w)) + 1 ->
  ParseFloat (TrimSpace l5) = Some preco -> SFleb preco f0 = false ->
  TrimSpace l6 <> EmptyString ->
  let novo := mkCarro ("car_" +:+ itoa (UnixNano (clock w (S (ticks w)))))
                (TrimSpace l1) (TrimSpace l2) ano (TrimSpace l4) preco (TrimSpace l6)
                (FormatDate (clock w (S (S (ticks w))))) in
  let r := AdicionarCarro c w in
  fst r = mkCadastro (<[ID novo := novo]> (carrosMap c))
            (append_slice (carros c) novo) (arquivoJSON c)
  /\ stdin (snd r) = rest.
Proof.
  intros Herr Hin H1 H2 H3 Hy H5 Hp H6 novo r. subst novo r.
  destruct w as [sin sb tok se clk tk fs dn out]. simpl in *. subst sin se.
  unfold AdicionarCarro, bind, ret.
  rewrite Print_printed. unfold printed. proj.
  rewrite readInput_eq. proj.
  destruct (TrimSpace l1) as [|a1 s1] eqn:E1; [congruence|].
  rewrite readInput_eq. proj.
  destruct (TrimSpace l2) as [|a2 s2] eqn:E2; [congruence|].
  rewrite readInput_eq. proj. rewrite H3.
  unfold year_rejected, bind, ret, Now. proj.
  destruct (ano <=? 0) eqn:Ea; [apply Z.leb_le in Ea; lia|]. proj.
  destruct (Year (clk tk) + 1 <? ano) eqn:Eb; [apply Z.ltb_lt in Eb; lia|].
  proj.
  rewrite readInput_eq. proj.
  rewrite readInput_eq. proj. rewrite H5. unfold price_rejected. rewrite Hp.
  rewrite readInput_eq. proj.
  destruct (TrimSpace l6) as [|a6 s6] eqn:E6; [congruence|].
  rewrite Print_printed. unfold printed. proj.
  rewrite save_and_warn_eq. proj.
  split; [reflexivity|].
  destruct (MarshalIndent _); [case_decide|]; reflexivity.
Qed.

Lemma valid_answers_witness :
  stdin (world_of corolla running_clock)
  = ["Toyota"; "Corolla"; "2020"; "Prata"; "95000"; "Japão"]
  /\ stdin (snd (@AdicionarCarro whole_lib (NewCadastroCarros "carros.json")
                   (world_of corolla running_clock))) = [].
Proof.
  split; [reflexivity|].
  refine (proj2 (@valid_answers_are_registered whole_lib (NewCadastroCarros "carros.json")
                   (world_of corolla running_clock)
                   "Toyota" "Corolla" "2020" "Prata" "95000" "Japão" [] 2020 (whole 95000)
                   eq_refl eq_refl _ _ eq_refl _ eq_refl eq_refl _));
    try (vm_compute; discriminate).
  simpl. lia.
Defined.

(** * The console loop ends *)

Lemma shorter_refl w : shorter w w.
Proof. unfold shorter. lia. Qed.

Lemma shorter_trans w1 w2 w3 : shorter w1 w2 -> shorter w2 w3 -> shorter w1 w3.
Proof. unfold shorter. lia. Qed.

Lemma Print_shorter m w u w' : Print m w = (u, w') -> shorter w w'.
Proof. intros [= _ <-]. unfold shorter. simpl. lia. Qed.

Lemma Now_shorter w t w' : Now w = (t, w') -> shorter w w'.
Proof. intros [= _ <-]. unfold shorter. simpl. lia. Qed.

Create HintDb shorter.
#[local] Hint Resolve Print_shorter Now_shorter : shorter.

(** Walks through the branches of an operation, keeping the equations of
    the calls it passes. *)
Ltac walk :=
  repeat (cbv beta iota;
    match goal with
    | |- context [match ?m ?w with pair _ _ => _ end] =>
        let E := fresh "E" in destruct (m w) as [? ?] eqn:E
    | |- context [match ?x with Some _ => _ | None => _ end] => destruct x eqn:?
    | |- context [if ?b then _ else _] => destruct b eqn:?
    | |- context [match ?s with EmptyString => _ | String _ _ => _ end] => destruct s
    end).

(** Turns the equations kept by [walk] into steps of [shorter] and chains
    them. *)
Ltac chain_shorter :=
  repeat match goal with
  | E : ?m ?w = (_, ?w') |- _ =>
      assert (shorter w w') by (eauto with shorter); clear E
  end;
  repeat first [ apply shorter_refl | eassumption | eapply shorter_trans; [eassumption|] ].

Section Console.
Context `{GoLib}.

Lemma readInput_shorter p w r w' : readInput p w = (r, w') -> shorter w w'.
Proof.
  rewrite readInput_eq. unfold shorter.
  destruct (stdin w) eqn:E; intros [= _ <-]; simpl; lia.
Qed.

Lemma save_and_warn_shorter c w u w' : save_and_warn c w = (u, w') -> shorter w w'.
Proof.
  rewrite save_and_warn_eq. intros [= _ <-].
  destruct (MarshalIndent _); [case_decide|]; unfold shorter; simpl; lia.
Qed.
#[local] Hint Resolve readInput_shorter save_and_warn_shorter : shorter.

Lemma year_rejected_shorter a w b w' : year_rejected a w = (b, w') -> shorter w w'.
Proof. unfold year_rejected, bind, ret. walk; intros [= <- <-]; chain_shorter. Qed.
#[local] Hint Resolve year_rejected_shorter : shorter.

Lemma AdicionarCarro_shorter c w c' w' : AdicionarCarro c w = (c', w') -> shorter w w'.
Proof. unfold AdicionarCarro, bind, ret. walk; intros [= <- <-]; chain_shorter. Qed.

Lemma updateOptional_shorter f v carro w carro' w' :
  updateOptional f v carro w = (carro', w') -> shorter w w'.
Proof. unfold updateOptional, bind, ret. walk; intros [= <- <-]; chain_shorter. Qed.

Lemma update_year_shorter carro w carro' w' :
  update_year carro w = (carro', w') -> shorter w w'.
Proof. unfold update_year, bind, ret. walk; intros [= <- <-]; chain_shorter. Qed.

Lemma update_price_shorter carro w carro' w' :
  update_price carro w = (carro', w') -> shorter w w'.
Proof. unfold update_price, bind, ret. walk; intros [= <- <-]; chain_shorter. Qed.
#[local] Hint Resolve updateOptional_shorter update_year_shorter update_price_shorter : shorter.

Lemma ask_fields_shorter carro w carro' w' :
  ask_fields carro w = (carro', w') -> shorter w w'.
Proof. unfold ask_fields, bind. walk. intros E5. chain_shorter. Qed.
#[local] Hint Resolve ask_fields_shorter : shorter.

Lemma AtualizarCarro_shorter id c w c' w' : AtualizarCarro id c w = (c', w') -> shorter w w'.
Proof. unfold AtualizarCarro, bind, ret. walk; intros [= <- <-]; chain_shorter. Qed.

Lemma RemoverCarro_shorter id c w c' w' : RemoverCarro id c w = (c', w') -> shorter w w'.
Proof. unfold RemoverCarro, bind, ret. walk; intros [= <- <-]; chain_shorter. Qed.

Lemma ListarCarros_shorter c w u w' : ListarCarros c w = (u, w') -> shorter w w'.
Proof. rewrite listing_prints_in_order. intros [= _ <-]. unfold shorter. simpl. lia. Qed.

Lemma BuscarCarro_shorter id c w u w' : BuscarCarro id c w = (u, w') -> shorter w w'.
Proof. unfold BuscarCarro, bind. walk; intros E'; chain_shorter. Qed.
#[local] Hint Resolve AdicionarCarro_shorter AtualizarCarro_shorter RemoverCarro_shorter
  ListarCarros_shorter BuscarCarro_shorter : shorter.

Lemma run_shorter k c w b c' w' : run k c w = (b, c', w') -> shorter w w'.
Proof.
  destruct k; unfold run, bind, ret; walk; intros [= <- <- <-]; chain_shorter.
Qed.

(** A turn that continues has read at least one line. *)
Lemma turn_reads c w c' w' :
  turn c w = (true, c', w') -> (length (stdin w') < length (stdin w))%nat.
Proof.
  unfold turn, bind, ret. rewrite Print_printed. cbv beta iota.
  unfold Scan, Text, ScanErr, printed. simpl.
  destruct (stdin w) as [|l rest] eqn:Ein; simpl.
  - destruct (stdin_broken w); simpl; intros [= ].
  - intros Hrun. apply run_shorter in Hrun. unfold shorter in Hrun. simpl in Hrun. lia.
Qed.

Lemma loop_enough n m c w :
  (length (stdin w) < n)%nat -> (length (stdin w) < m)%nat -> loop n c w = loop m c w.
Proof.
  revert m c w. induction n as [|n IH]; intros m c w Hn Hm; [lia|].
  destruct m as [|m]; [lia|]. simpl. unfold bind.
  destruct (turn c w) as [[b c1] w1] eqn:ET. simpl.
  destruct b; [|reflexivity].
  apply turn_reads in ET. apply IH; lia.
Qed.
End Console.

(** X15: no operation puts input back, every turn of the console loop
    that continues reads at least one line, and so the loop ends by itself
    on any input: run with more turns allowed than there are input lines,
    its result is the same however many more are allowed. *)
Theorem console_loop_ends `{GoLib} (fuel : nat) (c : CadastroCarros) (w : World) :
  (length (stdin w) < fuel)%nat ->
  loop fuel c w = loop (S (length (stdin w))) c w.
Proof. intros Hfuel. apply loop_enough; lia. Qed.

Lemma console_loop_ends_witness :
  (length (stdin (world_of ["list"; "exit"; "list"] running_clock)) < 7)%nat
  /\ @loop whole_lib 7 single (world_of ["list"; "exit"; "list"] running_clock)
     = @loop whole_lib 4 single (world_of ["list"; "exit"; "list"] running_clock).
Proof.
  split; [simpl; lia|].
  apply (@console_loop_ends whole_lib 7 single
           (world_of ["list"; "exit"; "list"] running_clock)).
  simpl. lia.
Defined.

(** * The command line *)

Ltac by_bytes c := destruct c as [[] [] [] [] [] [] [] []]; vm_compute; reflexivity.

Lemma lower_byte_not_upper c : is_upper (lower_byte c) = false.
Proof. by_bytes c. Qed.

Lemma lower_byte_space c : asciiSpace (lower_byte c) = asciiSpace c.
Proof. by_bytes c. Qed.

Lemma lower_byte_ascii c : is_ascii_byte (lower_byte c) = is_ascii_byte c.
Proof. by_bytes c. Qed.

Lemma lower_byte_twice c : lower_byte (lower_byte c) = lower_byte c.
Proof. by_bytes c. Qed.

Lemma has_upper_lower s : has_upper (lower_ascii s) = false.
Proof. induction s as [|c s IH]; simpl; [reflexivity|]. rewrite lower_byte_not_upper. exact IH. Qed.

Lemma lower_ascii_twice s : lower_ascii (lower_ascii s) = lower_ascii s.
Proof. induction s as [|c s IH]; simpl; [reflexivity|]. rewrite lower_byte_twice, IH. reflexivity. Qed.

Lemma isASCII_lower s : isASCII (lower_ascii s) = isASCII s.
Proof. induction s as [|c s IH]; simpl; [reflexivity|]. rewrite lower_byte_ascii, IH. reflexivity. Qed.

Lemma trim_left_lower s : trim_left_ascii (lower_ascii s) = lower_ascii (trim_left_ascii s).
Proof.
  induction s as [|c s IH]; simpl; [reflexivity|]. rewrite lower_byte_space.
  destruct (asciiSpace c); [exact IH|reflexivity].
Qed.

Lemma trim_right_lower s : trim_right_ascii (lower_ascii s) = lower_ascii (trim_right_ascii s).
Proof.
  induction s as [|c s IH]; simpl; [reflexivity|]. rewrite IH, lower_byte_space.
  destruct (trim_right_ascii s); simpl; [destruct (asciiSpace c)|]; reflexivity.
Qed.

Lemma isASCII_trim_left s : isASCII s = true -> isASCII (trim_left_ascii s) = true.
Proof.
  induction s as [|c s IH]; simpl; [reflexivity|]. intros Hs.
  apply andb_prop in Hs as [Hc Hs].
  destruct (asciiSpace c); [auto|]. simpl. rewrite Hc, Hs. reflexivity.
Qed.

Lemma isASCII_trim_right s : isASCII s = true -> isASCII (trim_right_ascii s) = true.
Proof.
  induction s as [|c s IH]; simpl; [reflexivity|]. intros Hs.
  apply andb_prop in Hs as [Hc Hs]. specialize (IH Hs).
  destruct (trim_right_ascii s); simpl in *.
  - destruct (asciiSpace c); simpl; [reflexivity|]. rewrite Hc. reflexivity.
  - rewrite Hc. exact IH.
Qed.

Lemma has_upper_of_list l : has_upper (string_of_list_ascii l) = negb (no_upper l).
Proof.
  induction l as [|c l IH]; simpl; [reflexivity|]. rewrite IH.
  destruct (is_upper c); reflexivity.
Qed.

Lemma no_upper_app l1 l2 : no_upper (l1 ++ l2) = no_upper l1 && no_upper l2.
Proof.
  induction l1 as [|c l IH]; simpl; [reflexivity|]. rewrite IH, andb_assoc. reflexivity.
Qed.

Lemma no_upper_rev l : no_upper (rev l) = no_upper l.
Proof.
  induction l as [|c l IH]; simpl; [reflexivity|].
  rewrite no_upper_app, IH. simpl. rewrite andb_true_r, andb_comm. reflexivity.
Qed.

Lemma fields_no_upper s cur :
  has_upper s = false -> no_upper cur = true ->
  Forall (fun f => has_upper f = false) (fields_ascii cur s).
Proof.
  revert cur. induction s as [|c s IH]; intros cur Hs Hcur; simpl.
  - destruct cur; [constructor|]. constructor; [|constructor].
    rewrite has_upper_of_list, no_upper_rev, Hcur. reflexivity.
  - simpl in Hs. apply orb_false_elim in Hs as [Hc Hs].
    destruct (asciiSpace c).
    + destruct cur; [apply IH; auto|]. constructor; [|apply IH; auto].
      rewrite has_upper_of_list, no_upper_rev, Hcur. reflexivity.
    + apply IH; [exact Hs|]. simpl. rewrite Hc, Hcur. reflexivity.
Qed.

Section CommandLine.
Context `{GoLib}.

Lemma select_ascii text :
  isASCII text = true ->
  Fields (ToLower (TrimSpace text))
  = fields_ascii [] (lower_ascii (trim_right_ascii (trim_left_ascii text))).
Proof.
  intros Ha. unfold TrimSpace, ToLower, Fields. rewrite Ha.
  rewrite (isASCII_trim_right _ (isASCII_trim_left _ Ha)).
  rewrite isASCII_lower, (isASCII_trim_right _ (isASCII_trim_left _ Ha)). reflexivity.
Qed.
End CommandLine.

(** X16: on a command line of ASCII characters, the identifier handed to
    find, remove or update holds no upper-case letter: a record whose
    identifier holds one cannot be reached from the console. *)
Theorem typed_identifier_is_lower_case `{GoLib} (text id : string) :
  isASCII text = true ->
  select text = CallFind id \/ select text = CallRemove id \/ select text = CallUpdate id ->
  has_upper id = false.
Proof.
  intros Ha Hsel. unfold select in Hsel. rewrite (select_ascii _ Ha) in Hsel.
  pose proof (fields_no_upper (lower_ascii (trim_right_ascii (trim_left_ascii text))) []
                (has_upper_lower _) eq_refl) as Hf.
  destruct (fields_ascii [] _) as [|cmd [|a rest]].
  - destruct Hsel as [?|[?|?]]; discriminate.
  - unfold with_arg in Hsel.
    repeat (destruct (String.eqb cmd _); [destruct Hsel as [?|[?|?]]; discriminate|]).
    destruct Hsel as [?|[?|?]]; discriminate.
  - apply Forall_cons in Hf as [_ Hf]. apply Forall_cons in Hf as [Ha' _].
    unfold with_arg in Hsel.
    repeat (destruct (String.eqb cmd _);
            [destruct Hsel as [?|[?|?]]; try discriminate; congruence|]).
    destruct Hsel as [?|[?|?]]; discriminate.
Qed.

(** X17: a command line of ASCII characters selects the same branch, with
    the same argument, as the line written in lower case. *)
Theorem command_line_case_insensitive `{GoLib} (text : string) :
  isASCII text = true -> select (lower_ascii text) = select text.
Proof.
  intros Ha. unfold select.
  rewrite (select_ascii text Ha), (select_ascii (lower_ascii text)).
  - rewrite trim_left_lower, trim_right_lower, lower_ascii_twice. reflexivity.
  - rewrite isASCII_lower. exact Ha.
Qed.

Lemma plain_byte_facts c :
  plain_byte c = true ->
  is_ascii_byte c = true /\ asciiSpace c = false /\ lower_byte c = c.
Proof.
  unfold plain_byte, lower_byte. intros Hp.
  apply andb_prop in Hp as [Hp Hu]. apply andb_prop in Hp as [Ha Hs].
  apply negb_true_iff in Hs, Hu. rewrite Hu. auto.
Qed.

Lemma plain_app s t : plain (s +:+ t) = plain s && plain t.
Proof. induction s as [|c s IH]; simpl; [reflexivity|]. rewrite IH, andb_assoc. reflexivity. Qed.

Lemma plain_lower s : plain s = true -> lower_ascii s = s.
Proof.
  induction s as [|c s IH]; simpl; [reflexivity|]. intros Hp.
  apply andb_prop in Hp as [Hc Hs]. apply plain_byte_facts in Hc as (_ & _ & ->).
  rewrite IH by exact Hs. reflexivity.
Qed.

Lemma plain_isASCII s : plain s = true -> isASCII s = true.
Proof.
  induction s as [|c s IH]; simpl; [reflexivity|]. intros Hp.
  apply andb_prop in Hp as [Hc Hs]. apply plain_byte_facts in Hc as (-> & _ & _).
  simpl. auto.
Qed.

Lemma plain_trim_right s : plain s = true -> trim_right_ascii s = s.
Proof.
  induction s as [|c s IH]; simpl; [reflexivity|]. intros Hp.
  apply andb_prop in Hp as [Hc Hs]. apply plain_byte_facts in Hc as (_ & Hsp & _).
  rewrite IH by exact Hs. destruct s; [rewrite Hsp|]; reflexivity.
Qed.

Lemma trim_right_before_plain pre s :
  s <> EmptyString -> plain s = true -> trim_right_ascii (pre +:+ s) = pre +:+ s.
Proof.
  intros Hne Hp. induction pre as [|c pre IH]; simpl.
  - apply plain_trim_right, Hp.
  - change (String c pre +:+ s) with (String c (pre +:+ s)). simpl.
    rewrite IH. destruct (pre +:+ s) eqn:E; [|reflexivity].
    destruct pre as [|b pre].
    + change (s = EmptyString) in E. congruence.
    + change (String b (pre +:+ s) = EmptyString) in E. discriminate.
Qed.

Lemma fields_plain s cur :
  plain s = true ->
  fields_ascii cur s
  = match rev cur ++ list_ascii_of_string s with
    | [] => []
    | l => [string_of_list_ascii l]
    end.
Proof.
  revert cur. induction s as [|c s IH]; intros cur Hp; simpl.
  - rewrite app_nil_r. destruct cur as [|a cur]; [reflexivity|]. simpl.
    destruct (rev cur ++ [a]) eqn:E; [|reflexivity].
    apply app_eq_nil in E as [_ E]. discriminate.
  - apply andb_prop in Hp as [Hc Hs]. apply plain_byte_facts in Hc as (_ & -> & _).
    rewrite IH by exact Hs. simpl. rewrite <- app_assoc. reflexivity.
Qed.

Lemma digit_plain c : is_digit c = true -> plain_byte c = true.
Proof. destruct c as [[] [] [] [] [] [] [] []]; vm_compute; congruence. Qed.

Lemma plain_pos_digits fuel n acc :
  0 <= n -> plain acc = true -> plain (pos_digits fuel n acc) = true.
Proof.
  revert n acc. induction fuel as [|k IH]; intros n acc Hn Hacc; simpl; [exact Hacc|].
  destruct (digit_char n Hn) as [Hd _]. apply digit_plain in Hd.
  destruct (n <? 10).
  - simpl. rewrite Hd, Hacc. reflexivity.
  - apply IH; [apply Z.div_pos; lia|]. simpl. rewrite Hd, Hacc. reflexivity.
Qed.

Lemma plain_itoa n : plain (itoa n) = true.
Proof.
  unfold itoa. destruct (n <? 0) eqn:E.
  - apply Z.ltb_lt in E.
    change (plain_byte "-" && plain (pos_digits (S (Z.to_nat (Z.log2 (- n)))) (- n) EmptyString)
            = true).
    rewrite plain_pos_digits; [reflexivity|lia|reflexivity].
  - apply Z.ltb_ge in E. apply plain_pos_digits; [lia|reflexivity].
Qed.

Lemma fields_plain_word id :
  plain id = true -> id <> EmptyString -> fields_ascii [] id = [id].
Proof.
  intros Hi Hin. rewrite (fields_plain _ _ Hi).
  destruct id as [|a id]; [congruence|].
  cbn [rev app list_ascii_of_string string_of_list_ascii].
  rewrite string_of_list_ascii_of_string. reflexivity.
Qed.

Lemma fields_after_blank cur id :
  plain id = true -> id <> EmptyString -> cur <> [] ->
  fields_ascii cur (String " " id) = [string_of_list_ascii (rev cur); id].
Proof.
  intros Hi Hin Hcur.
  change (fields_ascii cur (String " " id))
    with (match cur with
          | [] => fields_ascii [] id
          | _ => string_of_list_ascii (rev cur) :: fields_ascii [] id
          end).
  destruct cur; [congruence|]. rewrite (fields_plain_word _ Hi Hin). reflexivity.
Qed.

Lemma fields_word_blank cmd cur id :
  plain cmd = true -> plain id = true -> id <> EmptyString ->
  rev cur ++ list_ascii_of_string cmd <> [] ->
  fields_ascii cur (cmd +:+ String " " id)
  = [string_of_list_ascii (rev cur ++ list_ascii_of_string cmd); id].
Proof.
  revert cur. induction cmd as [|c cmd IH]; intros cur Hc Hi Hin Hne.
  - change ("" +:+ String " " id) with (String " " id).
    simpl in Hne. rewrite app_nil_r in *.
    apply fields_after_blank; [assumption|assumption|].
    intros ->. apply Hne. reflexivity.
  - simpl in Hc. apply andb_prop in Hc as [Hc1 Hc2].
    apply plain_byte_facts in Hc1 as (_ & Hsp & _).
    change (String c cmd +:+ String " " id) with (String c (cmd +:+ String " " id)).
    simpl fields_ascii. rewrite Hsp.
    rewrite IH; try assumption.
    + simpl. rewrite <- app_assoc. reflexivity.
    + simpl. rewrite <- app_assoc. simpl. intros E. apply app_eq_nil in E as [_ E].
      discriminate.
Qed.

Section Commands.
Context `{GoLib}.

(** A command word followed by one blank and a plain identifier. *)
Lemma fields_of_command cmd id :
  plain cmd = true -> cmd <> EmptyString -> plain id = true -> id <> EmptyString ->
  Fields (ToLower (TrimSpace (cmd +:+ String " " id))) = [cmd; id].
Proof.
  intros Hc Hcn Hi Hin.
  assert (Ha : isASCII (cmd +:+ String " " id) = true).
  { clear Hcn. induction cmd as [|c cmd IH].
    - apply plain_isASCII in Hi. change (isASCII (String " " id) = true). simpl. exact Hi.
    - simpl in Hc. apply andb_prop in Hc as [Hc1 Hc2].
      apply plain_byte_facts in Hc1 as (Hc1 & _ & _).
      change (isASCII (String c (cmd +:+ String " " id)) = true). simpl.
      rewrite Hc1. simpl. auto. }
  rewrite (select_ascii _ Ha).
  assert (Hl : trim_left_ascii (cmd +:+ String " " id) = cmd +:+ String " " id).
  { destruct cmd as [|c cmd]; [congruence|].
    simpl in Hc. apply andb_prop in Hc as [Hc1 _].
    apply plain_byte_facts in Hc1 as (_ & Hsp & _).
    change (String c cmd +:+ String " " id) with (String c (cmd +:+ String " " id)).
    simpl. rewrite Hsp. reflexivity. }
  rewrite Hl.
  assert (Hr : trim_right_ascii (cmd +:+ String " " id) = cmd +:+ String " " id).
  { replace (cmd +:+ String " " id) with ((cmd +:+ " ") +:+ id).
    - apply trim_right_before_plain; assumption.
    - clear. induction cmd as [|c cmd IH]; [reflexivity|].
      change (String c ((cmd +:+ " ") +:+ id) = String c (cmd +:+ String " " id)).
      rewrite IH. reflexivity. }
  rewrite Hr.
  assert (Hlow : lower_ascii (cmd +:+ String " " id) = cmd +:+ String " " id).
  { clear Hcn Ha Hl Hr. induction cmd as [|c cmd IH].
    - change (lower_ascii (String " " id) = String " " id). simpl.
      rewrite (plain_lower _ Hi). reflexivity.
    - simpl in Hc. apply andb_prop in Hc as [Hc1 Hc2].
      apply plain_byte_facts in Hc1 as (_ & _ & Hl1).
      change (lower_ascii (String c (cmd +:+ String " " id))
              = String c (cmd +:+ String " " id)).
      simpl. rewrite Hl1, (IH Hc2). reflexivity. }
  rewrite Hlow, fields_word_blank; try assumption.
  - simpl. rewrite string_of_list_ascii_of_string. reflexivity.
  - simpl. destruct cmd; [congruence|discriminate].
Qed.
End Commands.

(** X18: an identifier as registration makes it, [car_] followed by a
    decimal number, reaches the console unchanged: typing find, remove or
    update, one blank and the identifier selects that operation on exactly
    that identifier. *)
Theorem minted_identifier_can_be_typed `{GoLib} (n : Z) :
  let id := "car_" +:+ itoa n in
  select ("find " +:+ id) = CallFind id
  /\ select ("remove " +:+ id) = CallRemove id
  /\ select ("update " +:+ id) = CallUpdate id.
Proof.
  intros id.
  assert (Hp : plain id = true).
  { subst id. rewrite plain_app, plain_itoa. reflexivity. }
  assert (Hn : id <> EmptyString) by discriminate.
  unfold select.
  change ("find " +:+ id) with ("find" +:+ String " " id).
  change ("remove " +:+ id) with ("remove" +:+ String " " id).
  change ("update " +:+ id) with ("update" +:+ String " " id).
  rewrite (fields_of_command "find" id eq_refl ltac:(discriminate) Hp Hn).
  rewrite (fields_of_command "remove" id eq_refl ltac:(discriminate) Hp Hn).
  rewrite (fields_of_command "update" id eq_refl ltac:(discriminate) Hp Hn).
  repeat split.
Qed.

Lemma typed_identifier_witness :
  isASCII "Find CAR_17" = true
  /\ @select whole_lib "Find CAR_17" = CallFind "car_17"
  /\ has_upper "car_17" = false.
Proof.
  split; [reflexivity|]. split; [reflexivity|].
  apply (@typed_identifier_is_lower_case whole_lib "Find CAR_17" "car_17");
    [reflexivity|left; reflexivity].
Defined.

Lemma case_insensitive_witness :
  isASCII "  REMOVE Car_17  " = true
  /\ @select whole_lib (lower_ascii "  REMOVE Car_17  ") = @select whole_lib "  REMOVE Car_17  ".
Proof.
  split; [reflexivity|].
  apply (@command_line_case_insensitive whole_lib "  REMOVE Car_17  "). reflexivity.
Defined.

(** * Prices that cannot be saved *)

(** X19: the price check of registration rejects a price only when
    [price <= 0] holds.  When the other answers are valid and the price
    typed is read as a value that is neither finite nor rejected by that
    check (a NaN or the positive infinity), the record is registered in
    memory, the save fails, the warning is printed and the files are left
    as they were. *)
Theorem unsavable_price_is_registered `{GoLib} (c : CadastroCarros) (w : World)
    (l1 l2 l3 l4 l5 l6 : string) (rest : list string) (ano : Z) (preco : float64) :
  scan_err w = false ->
  stdin w = l1 :: l2 :: l3 :: l4 :: l5 :: l6 :: rest ->
  TrimSpace l1 <> EmptyString -> TrimSpace l2 <> EmptyString ->
  Atoi (TrimSpace l3) = Some ano -> 0 < ano <= Year (clock w (ticks w)) + 1 ->
  ParseFloat (TrimSpace l5) = Some preco -> SFleb preco f0 = false ->
  is_finite preco = false ->
  TrimSpace l6 <> EmptyString ->
  let r := AdicionarCarro c w in
  (exists novo, Preco novo = preco
                /\ elems (carros (fst r)) = elems (carros c) ++ [novo]
                /\ carrosMap (fst r) !! ID novo = Some novo)
  /\ files (snd r) = files w
  /\ last (stdout (snd r)) = Some MsgSaveWarning
  /\ MarshalIndent (carros (fst r)) = None.
Proof.
  intros Herr Hin H1 H2 H3 Hy H5 Hp Hfin H6 r. subst r.
  destruct w as [sin sb tok se clk tk fs dn out]. simpl in *. subst sin se.
  assert (Hnone : forall novo, Preco novo = preco ->
            MarshalIndent (append_slice (carros c) novo) = None).
  { intros novo Hn.
    destruct (MarshalIndent (append_slice (carros c) novo)) as [t|] eqn:E; [|reflexivity].
    assert (He : encodable (append_slice (carros c) novo))
      by (apply MarshalIndent_Some; eauto).
    unfold encodable, append_slice in He. simpl in He.
    apply Forall_app in He as [_ He]. apply Forall_cons in He as [He _].
    congruence. }
  unfold AdicionarCarro, bind, ret.
  rewrite Print_printed. unfold printed. proj.
  rewrite readInput_eq. proj.
  destruct (TrimSpace l1) as [|a1 s1] eqn:E1; [congruence|].
  rewrite readInput_eq. proj.
  destruct (TrimSpace l2) as [|a2 s2] eqn:E2; [congruence|].
  rewrite readInput_eq. proj. rewrite H3.
  unfold year_rejected, bind, ret, Now. proj.
  destruct (ano <=? 0) eqn:Ea; [apply Z.leb_le in Ea; lia|]. proj.
  destruct (Year (clk tk) + 1 <? ano) eqn:Eb; [apply Z.ltb_lt in Eb; lia|].
  proj.
  rewrite readInput_eq. proj.
  rewrite readInput_eq. proj. rewrite H5. unfold price_rejected. rewrite Hp.
  rewrite readInput_eq. proj.
  destruct (TrimSpace l6) as [|a6 s6] eqn:E6; [congruence|].
  rewrite Print_printed. unfold printed. proj.
  rewrite save_and_warn_eq. proj.
  cbn [carros]. rewrite Hnone by reflexivity. unfold printed. proj.
  split_and!.
  - eexists (mkCarro _ _ _ _ _ _ _ _). split; [reflexivity|]. simpl.
    split; [reflexivity|]. apply lookup_insert_eq.
  - reflexivity.
  - apply last_snoc.
  - reflexivity.
Qed.

Lemma unsavable_price_witness :
  @ParseFloat nan_lib "NaN" = Some S754_nan
  /\ files (snd (@AdicionarCarro nan_lib (NewCadastroCarros "carros.json")
                   (world_of ["Toyota"; "Corolla"; "2020"; "Prata"; "NaN"; "Japão"]
                      running_clock))) = ∅.
Proof.
  split; [reflexivity|].
  refine (proj1 (proj2 (@unsavable_price_is_registered nan_lib
                          (NewCadastroCarros "carros.json")
                          (world_of ["Toyota"; "Corolla"; "2020"; "Prata"; "NaN"; "Japão"]
                             running_clock)
                          "Toyota" "Corolla" "2020" "Prata" "NaN" "Japão" [] 2020 S754_nan
                          eq_refl eq_refl _ _ eq_refl _ eq_refl eq_refl eq_refl _)));
    try (vm_compute; discriminate).
  simpl. lia.
Defined.

(** * The answers to an update *)

Lemma with_fields_same c :
  with_fields c (Marca c) (Modelo c) (Ano c) (Cor c) (Preco c) (PaisOrigem c) = c.
Proof. destruct c; reflexivity. Qed.

Section Answers.
Context `{GoLib}.

Lemma updateOptional_waiting field v carro w l rest :
  waiting w l rest ->
  exists w',
    updateOptional field v carro w
    = (match TrimSpace l with
       | EmptyString => carro
       | opt => match v opt with
                | Some newVal => set_field field newVal carro
                | None => carro
                end
       end, w')
    /\ scan_err w' = false /\ stdin w' = rest
    /\ clock w' = clock w /\ ticks w' = ticks w.
Proof.
  intros [Herr Hin]. unfold updateOptional, bind, ret.
  rewrite readInput_eq, Hin, Herr.
  destruct (TrimSpace l) as [|a s]; [eexists; split; [reflexivity|simpl; auto]|].
  destruct (v (String a s)); rewrite ?Print_printed;
    eexists; (split; [reflexivity|simpl; auto]).
Qed.

Lemma update_year_waiting carro w l rest :
  waiting w l rest ->
  exists w',
    update_year carro w
    = (with_fields carro (Marca carro) (Modelo carro)
         (choose_year (TrimSpace l) (Year (clock w (ticks w)) + 1) (Ano carro))
         (Cor carro) (Preco carro) (PaisOrigem carro), w')
    /\ scan_err w' = false /\ stdin w' = rest.
Proof.
  intros [Herr Hin]. unfold update_year, bind, ret, choose_year.
  rewrite readInput_eq, Hin, Herr.
  destruct (TrimSpace l) as [|a s];
    [rewrite with_fields_same; eexists; split; [reflexivity|simpl; auto]|].
  destruct (Atoi (String a s)) as [ano|];
    [|rewrite with_fields_same, Print_printed; eexists; split; [reflexivity|simpl; auto]].
  destruct (0 <? ano); simpl andb;
    [|rewrite with_fields_same, Print_printed; eexists; split; [reflexivity|simpl; auto]].
  unfold Now. proj.
  destruct (ano <=? Year (clock w (ticks w)) + 1);
    rewrite ?with_fields_same, ?Print_printed;
    eexists; (split; [reflexivity|simpl; auto]).
Qed.

Lemma update_price_waiting carro w l rest :
  waiting w l rest ->
  exists w',
    update_price carro w
    = (with_fields carro (Marca carro) (Modelo carro) (Ano carro) (Cor carro)
         (choose_price (TrimSpace l) (Preco carro)) (PaisOrigem carro), w')
    /\ scan_err w' = false /\ stdin w' = rest.
Proof.
  intros [Herr Hin]. unfold update_price, bind, ret, choose_price.
  rewrite readInput_eq, Hin, Herr.
  destruct (TrimSpace l) as [|a s];
    [rewrite with_fields_same; eexists; split; [reflexivity|simpl; auto]|].
  destruct (ParseFloat (String a s)) as [p|];
    [|rewrite with_fields_same, Print_printed; eexists; split; [reflexivity|simpl; auto]].
  destruct (SFltb f0 p); rewrite ?with_fields_same, ?Print_printed;
    eexists; (split; [reflexivity|simpl; auto]).
Qed.

Lemma ask_fields_waiting carro w l1 l2 l3 l4 l5 l6 rest :
  scan_err w = false -> stdin w = l1 :: l2 :: l3 :: l4 :: l5 :: l6 :: rest ->
  exists w',
    ask_fields carro w
    = (with_fields carro
         (choose (TrimSpace l1) (Marca carro))
         (choose (TrimSpace l2) (Modelo carro))
         (choose_year (TrimSpace l3) (Year (clock w (ticks w)) + 1) (Ano carro))
         (choose (TrimSpace l4) (Cor carro))
         (choose_price (TrimSpace l5) (Preco carro))
         (choose (TrimSpace l6) (PaisOrigem carro)), w')
    /\ stdin w' = rest.
Proof.
  intros Herr Hin. unfold ask_fields, bind.
  destruct (updateOptional_waiting "Marca" non_empty carro w l1 _ (conj Herr Hin))
    as (w1 & -> & He1 & Hi1 & Hc1 & Ht1).
  destruct (updateOptional_waiting "Modelo" non_empty
              (match TrimSpace l1 with
               | EmptyString => carro
               | opt => match non_empty opt with
                        | Some newVal => set_field "Marca" newVal carro
                        | None => carro
                        end
               end) w1 l2 _ (conj He1 Hi1))
    as (w2 & -> & He2 & Hi2 & Hc2 & Ht2).
  match goal with |- context [update_year ?x w2] =>
    destruct (update_year_waiting x w2 l3 _ (conj He2 Hi2)) as (w3 & -> & He3 & Hi3) end.
  match goal with |- context [updateOptional "Cor" Some ?x w3] =>
    destruct (updateOptional_waiting "Cor" Some x w3 l4 _ (conj He3 Hi3))
      as (w4 & -> & He4 & Hi4 & _) end.
  match goal with |- context [update_price ?x w4] =>
    destruct (update_price_waiting x w4 l5 _ (conj He4 Hi4)) as (w5 & -> & He5 & Hi5) end.
  match goal with |- context [updateOptional "País de Origem" non_empty ?x w5] =>
    destruct (updateOptional_waiting "País de Origem" non_empty x w5 l6 _ (conj He5 Hi5))
      as (w6 & -> & He6 & Hi6 & _) end.
  exists w6. split; [|exact Hi6]. f_equal.
  rewrite Hc2, Hc1, Ht2, Ht1.
  unfold choose.
  destruct (TrimSpace l1), (TrimSpace l2), (TrimSpace l4), (TrimSpace l6);
    destruct carro; reflexivity.
Qed.
End Answers.

(** X20: an update of an identifier that the registry holds takes each
    of its six answers by itself: a blank answer keeps the current value of
    that field; a make, model, colour or country typed replaces it; a year
    typed replaces it only when it is a number from 1 to the clock's year
    plus one, and a price typed only when it is a number above zero; the
    identifier and the registration date stay.  (Input without read error
    and with six lines waiting.) *)
Theorem update_takes_each_answer `{GoLib} (id : string) (c : CadastroCarros)
    (carro : Carro) (w : World) (l1 l2 l3 l4 l5 l6 : string) (rest : list string) :
  scan_err w = false ->
  stdin w = l1 :: l2 :: l3 :: l4 :: l5 :: l6 :: rest ->
  carrosMap c !! id = Some carro ->
  let r := AtualizarCarro id c w in
  carrosMap (fst r) !! id
  = Some (with_fields carro
            (choose (TrimSpace l1) (Marca carro))
            (choose (TrimSpace l2) (Modelo carro))
            (choose_year (TrimSpace l3) (Year (clock w (ticks w)) + 1) (Ano carro))
            (choose (TrimSpace l4) (Cor carro))
            (choose_price (TrimSpace l5) (Preco carro))
            (choose (TrimSpace l6) (PaisOrigem carro)))
  /\ stdin (snd r) = rest.
Proof.
  intros Herr Hin Hid r. subst r.
  unfold AtualizarCarro, bind, ret. rewrite Hid.
  rewrite !Print_printed. cbv beta iota. rewrite printed_app.
  match goal with |- context [ask_fields carro ?x] =>
    destruct (ask_fields_waiting carro x l1 l2 l3 l4 l5 l6 rest Herr Hin)
      as (w1 & -> & Hi1) end.
  rewrite Print_printed. cbv beta iota zeta. rewrite save_and_warn_eq. simpl.
  split; [apply lookup_insert_eq|].
  destruct (MarshalIndent _); [case_decide|]; simpl; exact Hi1.
Qed.

Lemma update_takes_each_answer_witness :
  carrosMap duplicated !! "car_1" = Some car_a2
  /\ carrosMap (fst (@AtualizarCarro whole_lib "car_1" duplicated
                       (world_of ["Audi"; ""; "1999"; " "; "-5"; ""] running_clock)))
       !! "car_1"
     = Some (with_fields car_a2 "Audi" "X5" 1999 "Preto" (whole 450000) "Alemanha").
Proof.
  assert (Hid : carrosMap duplicated !! "car_1" = Some car_a2) by (vm_compute; reflexivity).
  split; [exact Hid|].
  exact (proj1 (@update_takes_each_answer whole_lib "car_1" duplicated car_a2
                  (world_of ["Audi"; ""; "1999"; " "; "-5"; ""] running_clock)
                  "Audi" "" "1999" " " "-5" "" [] eq_refl eq_refl Hid)).
Defined.
